(** * The dispatcher core of the Quantum scheduler

    A shallow embedding of [quantum_dispatcher_core_impl.h]: the
    constructor, [terminate], the size / emptiness / statistics queries,
    [resetStats], [post] and [postAsyncIo] of [DispatcherCore], followed by
    the properties of these operations.

    The queues the dispatcher owns are reached through the [IQueue]
    interface only; the model records every call the dispatcher makes on a
    queue, in order, next to the state the call leaves behind. *)

From Stdlib Require Import ZArith Lia String.
From stdpp Require Import base functions list.

Local Open Scope Z_scope.

(** ** Machine integers

    [int] is 32 bits wide and [size_t] 64 bits wide; both are carried by
    [Z], and every conversion the source performs is written out. *)

Definition INT_MAX : Z := 2 ^ 31 - 1.
Definition UINT_MAX : Z := 2 ^ 32 - 1.
Definition SIZE_MAX : Z := 2 ^ 64 - 1.

(** Conversion to [int] (two's complement wrap-around). *)
Definition to_int (z : Z) : Z := (z + 2 ^ 31) mod 2 ^ 32 - 2 ^ 31.

(** Conversion to [unsigned int]. *)
Definition to_unsigned (z : Z) : Z := z mod 2 ^ 32.

(** Conversion to [size_t]. *)
Definition to_size_t (z : Z) : Z := z mod 2 ^ 64.

(** [size_t] addition, as in [size += queue.size()]. *)
Definition size_t_add (a b : Z) : Z := to_size_t (a + b).

(** ** Identifiers of the queue interface *)

Module QueueType.
Inductive t : Set := Coro | IO | All.
End QueueType.

Module QueueId.
Definition Any : Z := -2.
Definition All : Z := -1.
End QueueId.

(** A non-null [Task::ptr] / [IoTask::ptr] is the address of a task object;
    the null pointer is [None]. *)
Abbreviation TaskAddr := nat (only parsing).
Abbreviation TaskPtr := (option nat) (only parsing).

(** ** Exceptions and outcomes of a call *)

Inductive exception : Set :=
| runtime_error (what : string)
| out_of_range.

(** A call returns, throws, or runs into undefined behaviour (the unchecked
    [operator[]] of [std::vector] applied outside the vector). *)
Inductive Result (A : Type) : Type :=
| Returns (a : A)
| Throws (e : exception)
| Undefined.
Arguments Returns {A} a.
Arguments Throws {A} e.
Arguments Undefined {A}.

(** ** The queue interface

    Modelled from the spec: the classes behind [IQueue] ([TaskQueue],
    [IoQueue]) and [QueueStatistics] are not part of the source file; the
    dispatcher uses exactly the operations below.  [size] is a [size_t]. *)

Module QueueStatistics.
Class Ops (S : Type) : Type := {
    (** [QueueStatistics stats;] *)
    init : S;
    (** [a += b] and [a + b] *)
    plus : S -> S -> S;
  }.
End QueueStatistics.

Module IQueue.
Class Ops (S Q : Type) : Type := {
    (** [TaskQueue()], the element of [_coroQueues] *)
    newTaskQueue : Q;
    (** [IoQueue(sharedIoQueue)]; the argument tells whether the pointer to
        the shared queue is non-null *)
    newIoQueue : bool -> Q;
    enqueue : TaskAddr -> Q -> Q;
    size : Q -> Z;
    empty : Q -> bool;
    stats : Q -> S;
    (** [stats().reset()] *)
    statsReset : Q -> Q;
    terminate : Q -> Q;
    signalEmptyCondition : bool -> Q -> Q;
    pinToCore : Z -> Q -> Q;
    size_range : forall q, 0 <= size q <= SIZE_MAX;
  }.
End IQueue.

(** The queues a call can be made on, and the calls themselves. *)
Inductive QueueRef : Set :=
| CoroQueue (i : nat)
| IoQueue (i : nat)
| SharedIoQueue.

Inductive Method : Set :=
| Size
| Empty
| Stats
| StatsReset
| Enqueue (task : TaskAddr)
| Terminate
| SignalEmptyCondition (value : bool)
| PinToCore (core : Z).

Definition Call : Set := QueueRef * Method.

#[global] Instance QueueRef_eq_dec : EqDecision QueueRef.
Proof. solve_decision. Defined.

#[global] Instance Method_eq_dec : EqDecision Method.
Proof. solve_decision. Defined.

(** ** A queue to run the model on

    Modelled from the spec: a queue holding its pending tasks in arrival
    order, with counters for what the dispatcher did to it.  It stands in
    for [TaskQueue] and [IoQueue], which the source file only uses. *)

Module SimQueue.
Record stats_t : Set := {
    postedCount : Z;
    completedCount : Z;
  }.

Record t : Set := {
    pending : list TaskAddr;
    statistics : stats_t;
    terminations : nat;
    signals : list bool;
    core : option Z;
    sharedQueue : bool;
  }.

Definition make (l : list TaskAddr) : t :=
    {| pending := l;
       statistics := {| postedCount := 0; completedCount := 0 |};
       terminations := 0; signals := []; core := None; sharedQueue := false |}.

#[global] Instance stats_ops : QueueStatistics.Ops stats_t := {|
    QueueStatistics.init := {| postedCount := 0; completedCount := 0 |};
    QueueStatistics.plus a b :=
      {| postedCount := postedCount a + postedCount b;
         completedCount := completedCount a + completedCount b |};
  |}.

#[global, refine] Instance queue_ops : IQueue.Ops stats_t t := {|
    IQueue.newTaskQueue := make [];
    IQueue.newIoQueue shared :=
      {| pending := []; statistics := QueueStatistics.init;
         terminations := 0; signals := []; core := None;
         sharedQueue := shared |};
    IQueue.enqueue task q :=
      {| pending := pending q ++ [task];
         statistics :=
           {| postedCount := postedCount (statistics q) + 1;
              completedCount := completedCount (statistics q) |};
         terminations := terminations q; signals := signals q;
         core := core q; sharedQueue := sharedQueue q |};
    IQueue.size q := to_size_t (Z.of_nat (length (pending q)));
    IQueue.empty q := match pending q with [] => true | _ => false end;
    IQueue.stats q := statistics q;
    IQueue.statsReset q :=
      {| pending := pending q; statistics := QueueStatistics.init;
         terminations := terminations q; signals := signals q;
         core := core q; sharedQueue := sharedQueue q |};
    IQueue.terminate q :=
      {| pending := pending q; statistics := statistics q;
         terminations := S (terminations q); signals := signals q;
         core := core q; sharedQueue := sharedQueue q |};
    IQueue.signalEmptyCondition b q :=
      {| pending := pending q; statistics := statistics q;
         terminations := terminations q; signals := signals q ++ [b];
         core := core q; sharedQueue := sharedQueue q |};
    IQueue.pinToCore c q :=
      {| pending := pending q; statistics := statistics q;
         terminations := terminations q; signals := signals q;
         core := Some c; sharedQueue := sharedQueue q |};
    IQueue.size_range := _;
  |}.
Proof.
    intros q. unfold to_size_t, SIZE_MAX.
    pose proof (Z.mod_pos_bound (Z.of_nat (length (pending q))) (2 ^ 64)).
    lia.
Defined.
End SimQueue.

(** ** The dispatcher

    Everything below is generic in the queue implementation behind
    [IQueue] and in [QueueStatistics]. *)

Module DispatcherCore.
Section Core.
Context {Statistics Q : Type} `{!QueueStatistics.Ops Statistics}.
Context `{!IQueue.Ops Statistics Q}.

(** The data members.  [_terminated] is the [std::atomic_flag]. *)
Record t : Type := {
  _coroQueues : list Q;
  _sharedIoQueue : Q;
  _ioQueues : list Q;
  _terminated : bool;
}.

(** What a call can see and change: the dispatcher itself and the task
    objects the [Task::ptr]s point to.  Of a task only its queue id matters
    here ([getQueueId] / [setQueueId]); a task enqueued on a queue and the
    task the caller holds are the same object, at the same address. *)
Record World : Type := {
  dispatcher : t;
  taskQueueId : TaskAddr -> Z;
}.

(** The outcome of running a method: its result, the state it leaves, and
    the calls it made on the queues, oldest first. *)
Record Outcome (A : Type) : Type := {
  result : Result A;
  final : World;
  calls : list Call;
}.
Arguments result {A} _.
Arguments final {A} _.
Arguments calls {A} _.

Definition M (A : Type) : Type := World -> Outcome A.

Definition ret {A : Type} (a : A) : M A :=
  fun w => {| result := Returns a; final := w; calls := [] |}.

(** Sequencing.  An exception (or undefined behaviour) ends the method; the
    state reached and the calls made so far stay as they are. *)
Definition bind {A B : Type} (m : M A) (k : A -> M B) : M B :=
  fun w =>
    let o := m w in
    match result o with
    | Returns a =>
        let o' := k a (final o) in
        {| result := result o'; final := final o';
           calls := calls o ++ calls o' |}
    | Throws e => {| result := Throws e; final := final o; calls := calls o |}
    | Undefined => {| result := Undefined; final := final o; calls := calls o |}
    end.

Definition throw {A : Type} (e : exception) : M A :=
  fun w => {| result := Throws e; final := w; calls := [] |}.

Notation "x <- m ;; k" := (bind m (fun x => k))
  (at level 100, m at next level, right associativity).
Notation "m ;;; k" := (bind m (fun _ => k))
  (at level 100, right associativity).

(** The two vectors of queues. *)
Inductive Vector : Set := coroQueues | ioQueues.

Definition elements (v : Vector) (d : t) : list Q :=
  match v with
  | coroQueues => _coroQueues d
  | ioQueues => _ioQueues d
  end.

(** [v.size()], a [size_t]. *)
Definition vector_size (v : Vector) : M Z :=
  fun w =>
    {| result := Returns (Z.of_nat (length (elements v (dispatcher w))));
       final := w; calls := [] |}.

Definition ref (v : Vector) (i : nat) : QueueRef :=
  match v with
  | coroQueues => CoroQueue i
  | ioQueues => IoQueue i
  end.

Definition undefined {A : Type} : M A :=
  fun w => {| result := Undefined; final := w; calls := [] |}.

(** [v[n]]: the index is converted to [size_t] and not checked; outside
    the vector the behaviour is undefined. *)
Definition subscript (v : Vector) (n : Z) : M QueueRef :=
  len <- vector_size v ;;
  if to_size_t n <? len then ret (ref v (Z.to_nat (to_size_t n)))
  else undefined.

(** [v.at(n)]: the index is converted to [size_t] and checked. *)
Definition at_ (v : Vector) (n : Z) : M QueueRef :=
  len <- vector_size v ;;
  if to_size_t n <? len then ret (ref v (Z.to_nat (to_size_t n)))
  else throw out_of_range.

Definition lookupQueue (r : QueueRef) (d : t) : option Q :=
  match r with
  | CoroQueue i => _coroQueues d !! i
  | IoQueue i => _ioQueues d !! i
  | SharedIoQueue => Some (_sharedIoQueue d)
  end.

Definition storeQueue (r : QueueRef) (q : Q) (d : t) : t :=
  match r with
  | CoroQueue i =>
      {| _coroQueues := <[i := q]> (_coroQueues d);
         _sharedIoQueue := _sharedIoQueue d;
         _ioQueues := _ioQueues d; _terminated := _terminated d |}
  | IoQueue i =>
      {| _coroQueues := _coroQueues d;
         _sharedIoQueue := _sharedIoQueue d;
         _ioQueues := <[i := q]> (_ioQueues d);
         _terminated := _terminated d |}
  | SharedIoQueue =>
      {| _coroQueues := _coroQueues d; _sharedIoQueue := q;
         _ioQueues := _ioQueues d; _terminated := _terminated d |}
  end.

(** A call of a [const] method of queue [r]. *)
Definition query {A : Type} (r : QueueRef) (m : Method) (f : Q -> A) : M A :=
  fun w =>
    match lookupQueue r (dispatcher w) with
    | Some q => {| result := Returns (f q); final := w; calls := [(r, m)] |}
    | None => {| result := Undefined; final := w; calls := [] |}
    end.

(** A call of a method that changes queue [r]. *)
Definition command (r : QueueRef) (m : Method) (f : Q -> Q) : M unit :=
  fun w =>
    match lookupQueue r (dispatcher w) with
    | Some q =>
        {| result := Returns tt;
           final := {| dispatcher := storeQueue r (f q) (dispatcher w);
                       taskQueueId := taskQueueId w |};
           calls := [(r, m)] |}
    | None => {| result := Undefined; final := w; calls := [] |}
    end.

(** The indices of a vector in increasing order: what
    [for (auto&& queue : v)] and [for (size_t i = 0; i < v.size(); ++i)]
    go through. *)
Definition indices (v : Vector) : M (list nat) :=
  len <- vector_size v ;; ret (seq 0 (Z.to_nat len)).

Fixpoint for_each {X : Type} (xs : list X) (body : X -> M unit) : M unit :=
  match xs with
  | [] => ret tt
  | x :: rest => body x ;;; for_each rest body
  end.

(** [task->getQueueId()] and [task->setQueueId(id)]. *)
Definition getQueueId (task : TaskAddr) : M Z :=
  fun w => {| result := Returns (taskQueueId w task); final := w; calls := [] |}.

Definition setQueueId (task : TaskAddr) (id : Z) : M unit :=
  fun w =>
    {| result := Returns tt;
       final := {| dispatcher := dispatcher w;
                   taskQueueId := <[task := id]> (taskQueueId w) |};
       calls := [] |}.

(** [_terminated.test_and_set()]: sets the flag, returns what it was. *)
Definition test_and_set : M bool :=
  fun w =>
    let d := dispatcher w in
    {| result := Returns (_terminated d);
       final := {| dispatcher :=
                     {| _coroQueues := _coroQueues d;
                        _sharedIoQueue := _sharedIoQueue d;
                        _ioQueues := _ioQueues d; _terminated := true |};
                   taskQueueId := taskQueueId w |};
       calls := [] |}.

(** *** Construction *)

(** The member initialisers.  [hardware_concurrency] is what
    [std::thread::hardware_concurrency()] returns, an [unsigned int]; in
    the conditional expression [numCoroutineThreads] is converted to
    [unsigned int] too, and both vector sizes to [size_t]. *)
Definition members (hardware_concurrency numCoroutineThreads numIoThreads : Z)
  : t :=
  {| _coroQueues :=
       replicate
         (Z.to_nat
            (to_size_t
               (if numCoroutineThreads =? -1 then hardware_concurrency
                else to_unsigned numCoroutineThreads)))
         IQueue.newTaskQueue;
     _sharedIoQueue := IQueue.newIoQueue false;
     _ioQueues :=
       replicate (Z.to_nat (to_size_t numIoThreads)) (IQueue.newIoQueue true);
     _terminated := false |}.

(** The body of the constructor. *)
Definition constructor_body (hardware_concurrency : Z)
    (pinCoroutineThreadsToCores : bool) : M unit :=
  if pinCoroutineThreadsToCores then
    n <- vector_size coroQueues ;;
    (if n >? hardware_concurrency
     then throw (runtime_error "Number of queues exceeds cores.")
     else ret tt) ;;;
    ixs <- indices coroQueues ;;
    for_each ixs (fun i =>
      command (ref coroQueues i) (PinToCore (Z.of_nat i))
        (IQueue.pinToCore (Z.of_nat i)))
  else ret tt.

(** [DispatcherCore(numCoroutineThreads, numIoThreads,
    pinCoroutineThreadsToCores)], run next to the task objects [tasks].
    When the result is [Throws], no object has been constructed. *)
Definition new (hardware_concurrency numCoroutineThreads numIoThreads : Z)
    (pinCoroutineThreadsToCores : bool) (tasks : TaskAddr -> Z)
  : Outcome unit :=
  constructor_body hardware_concurrency pinCoroutineThreadsToCores
    {| dispatcher :=
         members hardware_concurrency numCoroutineThreads numIoThreads;
       taskQueueId := tasks |}.

(** *** Termination *)

Definition terminate : M unit :=
  was_set <- test_and_set ;;
  if negb was_set then
    cs <- indices coroQueues ;;
    for_each cs (fun i =>
      command (ref coroQueues i) Terminate IQueue.terminate) ;;;
    ios <- indices ioQueues ;;
    for_each ios (fun i =>
      command (ref ioQueues i) Terminate IQueue.terminate) ;;;
    command SharedIoQueue Terminate IQueue.terminate
  else ret tt.

(** [~DispatcherCore()] *)
Definition destructor : M unit := terminate.

(** [n] calls of [terminate] in a row. *)
Fixpoint terminate_times (n : nat) : M unit :=
  match n with
  | O => ret tt
  | Datatypes.S n' => terminate ;;; terminate_times n'
  end.

(** *** Sizes *)

(** [for (auto&& queue : v) size += queue.size();] *)
Fixpoint add_sizes (v : Vector) (ixs : list nat) (size : Z) : M Z :=
  match ixs with
  | [] => ret size
  | i :: rest =>
      s <- query (ref v i) Size IQueue.size ;;
      add_sizes v rest (size_t_add size s)
  end.

Definition coroSize (queueId : Z) : M Z :=
  if queueId =? QueueId.All then
    ixs <- indices coroQueues ;;
    add_sizes coroQueues ixs 0
  else
    r <- at_ coroQueues queueId ;;
    query r Size IQueue.size.

Definition ioSize (queueId : Z) : M Z :=
  if queueId =? QueueId.All then
    ixs <- indices ioQueues ;;
    size <- add_sizes ioQueues ixs 0 ;;
    s <- query SharedIoQueue Size IQueue.size ;;
    ret (size_t_add size s)
  else if queueId =? QueueId.Any then
    query SharedIoQueue Size IQueue.size
  else
    r <- at_ ioQueues queueId ;;
    query r Size IQueue.size.

(** The two operands of [+] are evaluated left to right here; both only
    read. *)
Definition size (type : QueueType.t) (queueId : Z) : M Z :=
  match type with
  | QueueType.All =>
      (if negb (queueId =? QueueId.All)
       then throw (runtime_error "Cannot specify queue id")
       else ret tt) ;;;
      a <- coroSize QueueId.All ;;
      b <- ioSize QueueId.All ;;
      ret (size_t_add a b)
  | QueueType.Coro => coroSize queueId
  | QueueType.IO => ioSize queueId
  end.

(** *** Emptiness *)

(** [for (auto&& queue : v) if (!queue.empty()) return false;] followed by
    [otherwise]. *)
Fixpoint all_empty (v : Vector) (ixs : list nat) (otherwise : M bool)
  : M bool :=
  match ixs with
  | [] => otherwise
  | i :: rest =>
      e <- query (ref v i) Empty IQueue.empty ;;
      if negb e then ret false else all_empty v rest otherwise
  end.

Definition coroEmpty (queueId : Z) : M bool :=
  if queueId =? QueueId.All then
    ixs <- indices coroQueues ;;
    all_empty coroQueues ixs (ret true)
  else
    r <- at_ coroQueues queueId ;;
    query r Empty IQueue.empty.

Definition ioEmpty (queueId : Z) : M bool :=
  if queueId =? QueueId.All then
    ixs <- indices ioQueues ;;
    all_empty ioQueues ixs (query SharedIoQueue Empty IQueue.empty)
  else if queueId =? QueueId.Any then
    query SharedIoQueue Empty IQueue.empty
  else
    r <- at_ ioQueues queueId ;;
    query r Empty IQueue.empty.

Definition empty (type : QueueType.t) (queueId : Z) : M bool :=
  match type with
  | QueueType.All =>
      (if negb (queueId =? QueueId.All)
       then throw (runtime_error "Cannot specify queue id")
       else ret tt) ;;;
      a <- coroEmpty QueueId.All ;;
      if a then ioEmpty QueueId.All else ret false
  | QueueType.Coro => coroEmpty queueId
  | QueueType.IO => ioEmpty queueId
  end.

(** *** Statistics *)

(** [for (auto&& queue : v) stats += queue.stats();] *)
Fixpoint add_stats (v : Vector) (ixs : list nat) (stats : Statistics) : M Statistics :=
  match ixs with
  | [] => ret stats
  | i :: rest =>
      s <- query (ref v i) Stats IQueue.stats ;;
      add_stats v rest (QueueStatistics.plus stats s)
  end.

Definition coroStats (queueId : Z) : M Statistics :=
  if queueId =? QueueId.All then
    ixs <- indices coroQueues ;;
    add_stats coroQueues ixs QueueStatistics.init
  else
    n <- vector_size coroQueues ;;
    (if (queueId >=? to_int n) || (queueId <? 0)
     then throw (runtime_error "Invalid queue id")
     else ret tt) ;;;
    r <- subscript coroQueues queueId ;;
    query r Stats IQueue.stats.

(** The bound the id is checked against is the size of [_coroQueues]; the
    vector indexed is [_ioQueues]. *)
Definition ioStats (queueId : Z) : M Statistics :=
  if queueId =? QueueId.All then
    ixs <- indices ioQueues ;;
    stats <- add_stats ioQueues ixs QueueStatistics.init ;;
    s <- query SharedIoQueue Stats IQueue.stats ;;
    ret (QueueStatistics.plus stats s)
  else if queueId =? QueueId.Any then
    query SharedIoQueue Stats IQueue.stats
  else
    n <- vector_size coroQueues ;;
    (if (queueId >=? to_int n) || (queueId <? 0)
     then throw (runtime_error "Invalid queue id")
     else ret tt) ;;;
    r <- subscript ioQueues queueId ;;
    query r Stats IQueue.stats.

Definition stats (type : QueueType.t) (queueId : Z) : M Statistics :=
  match type with
  | QueueType.All =>
      (if negb (queueId =? QueueId.All)
       then throw (runtime_error "Cannot specify queue id")
       else ret tt) ;;;
      a <- coroStats QueueId.All ;;
      b <- ioStats QueueId.All ;;
      ret (QueueStatistics.plus a b)
  | QueueType.Coro => coroStats queueId
  | QueueType.IO => ioStats queueId
  end.

Definition resetStats : M unit :=
  cs <- indices coroQueues ;;
  for_each cs (fun i =>
    command (ref coroQueues i) StatsReset IQueue.statsReset) ;;;
  command SharedIoQueue StatsReset IQueue.statsReset ;;;
  ios <- indices ioQueues ;;
  for_each ios (fun i =>
    command (ref ioQueues i) StatsReset IQueue.statsReset).

(** *** Posting *)

(** The loop of [post] over the indices still to visit, with the locals
    [numTasks] and [index]; [break] leaves it. *)
Fixpoint shortest (ixs : list nat) (numTasks index : Z) : M Z :=
  match ixs with
  | [] => ret index
  | i :: rest =>
      queueSize <- query (ref coroQueues i) Size IQueue.size ;;
      let numTasks' := if queueSize <? numTasks then queueSize else numTasks in
      let index' := if queueSize <? numTasks then Z.of_nat i else index in
      if numTasks' =? 0 then ret index' else shortest rest numTasks' index'
  end.

Definition post (task : TaskPtr) : M unit :=
  match task with
  | None => ret tt
  | Some task =>
      id <- getQueueId task ;;
      (if id =? QueueId.Any then
         ixs <- indices coroQueues ;;
         index <- shortest ixs SIZE_MAX 0 ;;
         setQueueId task (to_int index)
       else
         id <- getQueueId task ;;
         n <- vector_size coroQueues ;;
         if id >=? to_int n
         then throw (runtime_error "Queue id out of bounds")
         else ret tt) ;;;
      id <- getQueueId task ;;
      r <- subscript coroQueues id ;;
      command r (Enqueue task) (IQueue.enqueue task)
  end.

Definition postAsyncIo (task : TaskPtr) : M unit :=
  match task with
  | None => ret tt
  | Some task =>
      id <- getQueueId task ;;
      if id =? QueueId.Any then
        command SharedIoQueue (Enqueue task) (IQueue.enqueue task) ;;;
        ios <- indices ioQueues ;;
        for_each ios (fun i =>
          command (ref ioQueues i) (SignalEmptyCondition false)
            (IQueue.signalEmptyCondition false))
      else
        id <- getQueueId task ;;
        n <- vector_size ioQueues ;;
        (if id >=? to_int n
         then throw (runtime_error "Queue id out of bounds")
         else ret tt) ;;;
        id <- getQueueId task ;;
        r <- subscript ioQueues id ;;
        command r (Enqueue task) (IQueue.enqueue task)
  end.

(** *** Vocabulary of the properties *)

(** Running [m] from [w] gives result [r], leaves state [w'] and makes the
    calls [cs]. *)
Definition runs {A : Type} (m : M A) (w : World) (r : Result A) (w' : World)
    (cs : list Call) : Prop :=
  result (m w) = r /\ final (m w) = w' /\ calls (m w) = cs.

(** The world [w] with the queues of vector [v] replaced by [l]. *)
Definition with_elements (v : Vector) (l : list Q) (w : World) : World :=
  let d := dispatcher w in
  {| dispatcher :=
       match v with
       | coroQueues =>
           {| _coroQueues := l; _sharedIoQueue := _sharedIoQueue d;
              _ioQueues := _ioQueues d; _terminated := _terminated d |}
       | ioQueues =>
           {| _coroQueues := _coroQueues d;
              _sharedIoQueue := _sharedIoQueue d;
              _ioQueues := l; _terminated := _terminated d |}
       end;
     taskQueueId := taskQueueId w |}.

(** The calls of one method, [m i] on the queue at index [i], over the
    indices [ixs] of vector [v]. *)
Definition calls_on (v : Vector) (m : nat -> Method) (ixs : list nat)
  : list Call :=
  (fun i => (ref v i, m i)) <$> ixs.

(** The sizes of the queues [l] added up in [Z], and the statistics of the
    queues [l] merged onto [acc] in order. *)
Definition total_size (l : list Q) : Z :=
  foldr (fun q acc => IQueue.size q + acc) 0 l.

Definition merged_stats (acc : Statistics) (l : list Q) : Statistics :=
  foldl (fun acc q => QueueStatistics.plus acc (IQueue.stats q)) acc l.

(** The state a full shutdown leaves, and the calls it makes: every
    coroutine queue, then every IO queue, then the shared IO queue. *)
Definition terminated_world (w : World) : World :=
  let d := dispatcher w in
  {| dispatcher :=
       {| _coroQueues := IQueue.terminate <$> _coroQueues d;
          _sharedIoQueue := IQueue.terminate (_sharedIoQueue d);
          _ioQueues := IQueue.terminate <$> _ioQueues d;
          _terminated := true |};
     taskQueueId := taskQueueId w |}.

Definition shutdown_sequence (d : t) : list Call :=
  calls_on coroQueues (fun _ => Terminate) (seq 0 (length (_coroQueues d)))
  ++ calls_on ioQueues (fun _ => Terminate) (seq 0 (length (_ioQueues d)))
  ++ [(SharedIoQueue, Terminate)].

(** Queue [i] of [l] has the minimum size, and every queue before it is
    strictly longer: the shortest queue, the earliest one among equals. *)
Definition earliest_shortest (l : list Q) (i : nat) : Prop :=
  exists q,
    l !! i = Some q
    /\ (forall j qj, l !! j = Some qj -> IQueue.size q <= IQueue.size qj)
    /\ (forall j qj,
          l !! j = Some qj -> (j < i)%nat -> IQueue.size q < IQueue.size qj).

(** A scan of [l] in index order that reads [n] sizes stops at the first
    queue of size 0: none of the first [n - 1] queues has size 0, and the
    scan either went through all of [l] or read size 0 last. *)
Definition scan_stops_at (l : list Q) (n : nat) : Prop :=
  (forall j qj, l !! j = Some qj -> (j < n - 1)%nat -> IQueue.size qj <> 0)
  /\ (n = length l
      \/ exists q, l !! (n - 1)%nat = Some q /\ IQueue.size q = 0).

(** The number of queues at the front of [l] that are empty, and the
    number of queues an emptiness loop over [l] asks: those, and the first
    queue that is not empty when there is one. *)
Fixpoint leading_empty (l : list Q) : nat :=
  match l with
  | [] => 0
  | q :: rest => if IQueue.empty q then Datatypes.S (leading_empty rest) else 0
  end.

Definition asked (l : list Q) : nat :=
  Nat.min (Datatypes.S (leading_empty l)) (length l).





(** What [post] of [task] may change from [w] to [w']: the contents of
    the coroutine queues, not their number, and the queue id of [task]. *)
Definition coro_frame (task : TaskPtr) (w w' : World) : Prop :=
  _ioQueues (dispatcher w') = _ioQueues (dispatcher w)
  /\ _sharedIoQueue (dispatcher w') = _sharedIoQueue (dispatcher w)
  /\ _terminated (dispatcher w') = _terminated (dispatcher w)
  /\ length (_coroQueues (dispatcher w')) = length (_coroQueues (dispatcher w))
  /\ (forall t, Some t <> task -> taskQueueId w' t = taskQueueId w t).

(** What [postAsyncIo] may change: the shared IO queue and the contents
    of the IO queues, not their number. *)
Definition io_frame (w w' : World) : Prop :=
  _coroQueues (dispatcher w') = _coroQueues (dispatcher w)
  /\ _terminated (dispatcher w') = _terminated (dispatcher w)
  /\ length (_ioQueues (dispatcher w')) = length (_ioQueues (dispatcher w))
  /\ (forall t, taskQueueId w' t = taskQueueId w t).

(** The numbers of coroutine and IO queues. *)
Definition counts (w : World) : nat * nat :=
  (length (_coroQueues (dispatcher w)), length (_ioQueues (dispatcher w))).

End Core.

Arguments t Q : clear implicits.
Arguments World Q : clear implicits.
Arguments Outcome Q A : clear implicits.
Arguments M Q A : clear implicits.
Arguments result {Q A} _.
Arguments final {Q A} _.
Arguments calls {Q A} _.

(** ** Worlds to run the dispatcher on *)

(** Task 0 asks for [Any], task 1 for [All], task 2 for queue 7, every
    other task for queue 1. *)
Definition example_tasks (task : TaskAddr) : Z :=
  match task with
  | 0%nat => QueueId.Any
  | 1%nat => QueueId.All
  | 2%nat => 7
  | _ => 1
  end.

(** A dispatcher that has not been terminated, given the pending tasks of
    its queues. *)
Definition example_world (coro io : list (list TaskAddr))
    (shared : list TaskAddr) : World SimQueue.t :=
  {| dispatcher :=
       {| _coroQueues := SimQueue.make <$> coro;
          _sharedIoQueue := SimQueue.make shared;
          _ioQueues := SimQueue.make <$> io;
          _terminated := false |};
     taskQueueId := example_tasks |}.

(** Four coroutine queues of sizes 3, 1, 1 and 5, two IO queues of sizes 0
    and 1, an empty shared IO queue. *)
Definition world_3_1_1_5 : World SimQueue.t :=
  example_world
    [[10; 11; 12]; [13]; [14]; [15; 16; 17; 18; 19]]%nat
    [[]; [20]]%nat
    [].

(** One coroutine queue and two IO queues; two coroutine queues and one
    IO queue. *)
Definition world_1_coro_2_io : World SimQueue.t :=
  example_world [[]] [[]; []] [].

Definition world_2_coro_1_io : World SimQueue.t :=
  example_world [[]; []] [[]] [].

(** ** Properties *)

Section Properties.
Context {Statistics Q : Type} `{!QueueStatistics.Ops Statistics}.
Context `{!IQueue.Ops Statistics Q}.

Implicit Types (w : World Q) (v : Vector) (r : QueueRef).

(** *** Running the monad *)

Lemma runs_ret {A : Type} (a : A) w : runs (ret a) w (Returns a) w [].
Proof. by unfold runs. Qed.

Lemma runs_throw {A : Type} e w : runs (throw (A:=A) e) w (Throws e) w [].
Proof. by unfold runs. Qed.

Lemma runs_bind {A B : Type} (m : M Q A) (k : A -> M Q B) w a w1 c1 res w2 c2 c :
  runs m w (Returns a) w1 c1 ->
  runs (k a) w1 res w2 c2 ->
  c = c1 ++ c2 ->
  runs (bind m k) w res w2 c.
Proof.
  unfold runs, bind. intros (Hr & Hf & Hc) (Hr' & Hf' & Hc') ->.
  rewrite Hr. cbn. rewrite Hf, Hc, Hr', Hf', Hc'. done.
Qed.

(** One step of a method: [tac] runs the first call, what is left is the
    rest of the method. *)
Ltac run_with tac := eapply runs_bind; [ tac | | reflexivity ].

Lemma runs_calls {A : Type} (m : M Q A) w res w' c c' :
  runs m w res w' c -> c = c' -> runs m w res w' c'.
Proof. by intros ? <-. Qed.

Lemma runs_eq {A : Type} (m : M Q A) w res w1 w2 c1 c2 :
  runs m w res w1 c1 -> w1 = w2 -> c1 = c2 -> runs m w res w2 c2.
Proof. by intros ? <- <-. Qed.

Lemma runs_bind_throws {A B : Type} (m : M Q A) (k : A -> M Q B) w e w1 c1 :
  runs m w (Throws e) w1 c1 -> runs (bind m k) w (Throws e) w1 c1.
Proof.
  unfold runs, bind. intros (Hr & Hf & Hc). rewrite Hr. cbn. done.
Qed.

Lemma runs_bind_undefined {A B : Type} (m : M Q A) (k : A -> M Q B) w w1 c1 :
  runs m w Undefined w1 c1 -> runs (bind m k) w Undefined w1 c1.
Proof.
  unfold runs, bind. intros (Hr & Hf & Hc). rewrite Hr. cbn. done.
Qed.

Lemma runs_vector_size v w :
  runs (vector_size v) w
    (Returns (Z.of_nat (length (elements v (dispatcher w))))) w [].
Proof. by unfold runs. Qed.

Lemma runs_indices v w :
  runs (indices v) w (Returns (seq 0 (length (elements v (dispatcher w))))) w [].
Proof.
  unfold indices. run_with ltac:(apply runs_vector_size).
  rewrite Nat2Z.id. apply runs_ret.
Qed.

Lemma runs_getQueueId task w :
  runs (getQueueId task) w (Returns (taskQueueId w task)) w [].
Proof. by unfold runs. Qed.

Lemma runs_query {A : Type} r m (f : Q -> A) w q :
  lookupQueue r (dispatcher w) = Some q ->
  runs (query r m f) w (Returns (f q)) w [(r, m)].
Proof. unfold runs, query. intros ->. done. Qed.

Lemma runs_command r m (f : Q -> Q) w q :
  lookupQueue r (dispatcher w) = Some q ->
  runs (command r m f) w (Returns tt)
    {| dispatcher := storeQueue r (f q) (dispatcher w);
       taskQueueId := taskQueueId w |}
    [(r, m)].
Proof. unfold runs, command. intros ->. done. Qed.

Lemma lookupQueue_ref v i (d : t Q) :
  lookupQueue (ref v i) d = elements v d !! i.
Proof. by destruct v. Qed.

Lemma storeQueue_ref v i q w :
  {| dispatcher := storeQueue (ref v i) q (dispatcher w);
     taskQueueId := taskQueueId w |}
  = with_elements v (<[i := q]> (elements v (dispatcher w))) w.
Proof. by destruct v. Qed.

Lemma with_elements_twice v l l' w :
  with_elements v l' (with_elements v l w) = with_elements v l' w.
Proof. by destruct v. Qed.

Lemma elements_with_elements v l w :
  elements v (dispatcher (with_elements v l w)) = l.
Proof. by destruct v. Qed.

Lemma with_elements_same v w :
  with_elements v (elements v (dispatcher w)) w = w.
Proof. destruct w as [[cs sh ios tm] h]. by destruct v. Qed.

(** A method called on the queue at index [i] of vector [v]. *)
Lemma runs_command_ref v i m (f : Q -> Q) w q :
  elements v (dispatcher w) !! i = Some q ->
  runs (command (ref v i) m f) w (Returns tt)
    (with_elements v (<[i := f q]> (elements v (dispatcher w))) w)
    [(ref v i, m)].
Proof.
  intros Hq. rewrite <- storeQueue_ref. apply runs_command.
  by rewrite lookupQueue_ref.
Qed.

(** *** Loops over a vector *)

(** A loop that calls one changing method on the queues at the indices
    from [length l1] on: the queues before are left alone, each queue after
    is changed by its call, and the calls are made in index order. *)
Lemma runs_for_each_from v (m : nat -> Method) (f : nat -> Q -> Q) :
  forall (l2 l1 : list Q) w,
    elements v (dispatcher w) = l1 ++ l2 ->
    runs (for_each (seq (length l1) (length l2))
            (fun i => command (ref v i) (m i) (f i)))
      w (Returns tt)
      (with_elements v (l1 ++ imap (fun j => f (length l1 + j)%nat) l2) w)
      (calls_on v m (seq (length l1) (length l2))).
Proof.
  induction l2 as [|q l2 IH]; intros l1 w Hw.
  - cbn. rewrite <- Hw, with_elements_same. apply runs_ret.
  - cbn [length seq for_each].
    assert (Hq : elements v (dispatcher w) !! length l1 = Some q)
      by (rewrite Hw; apply list_lookup_middle; done).
    run_with ltac:(apply (runs_command_ref _ _ _ _ _ _ Hq)).
    + rewrite Hw.
      replace (<[length l1 := f (length l1) q]> (l1 ++ q :: l2))
        with ((l1 ++ [f (length l1) q]) ++ l2).
      2:{ rewrite insert_app_r_alt by lia. rewrite Nat.sub_diag. cbn.
          by rewrite <- app_assoc. }
      specialize (IH (l1 ++ [f (length l1) q])
                    (with_elements v ((l1 ++ [f (length l1) q]) ++ l2) w)).
      rewrite length_app in IH. cbn [length] in IH.
      rewrite Nat.add_1_r in IH.
      rewrite with_elements_twice in IH.
      replace (l1 ++ imap (fun j => f (length l1 + j)%nat) (q :: l2))
        with ((l1 ++ [f (length l1) q])
                ++ imap (fun j => f (Datatypes.S (length l1) + j)%nat) l2).
      * apply IH. apply elements_with_elements.
      * rewrite imap_cons, <- app_assoc. cbn. rewrite Nat.add_0_r.
        do 2 f_equal. apply imap_ext. intros j x _. cbn.
        by rewrite Nat.add_succ_r.
Qed.

Lemma runs_for_each v (m : nat -> Method) (f : nat -> Q -> Q) w :
  runs (for_each (seq 0 (length (elements v (dispatcher w))))
          (fun i => command (ref v i) (m i) (f i)))
    w (Returns tt)
    (with_elements v (imap f (elements v (dispatcher w))) w)
    (calls_on v m (seq 0 (length (elements v (dispatcher w))))).
Proof.
  apply (runs_for_each_from v m f (elements v (dispatcher w)) [] w).
  done.
Qed.

Lemma to_size_t_small z : 0 <= z <= SIZE_MAX -> to_size_t z = z.
Proof. unfold to_size_t, SIZE_MAX. intros Hz. apply Z.mod_small. lia. Qed.

Lemma to_size_t_range z : 0 <= to_size_t z <= SIZE_MAX.
Proof.
  unfold to_size_t, SIZE_MAX. pose proof (Z.mod_pos_bound z (2 ^ 64)). lia.
Qed.

Lemma to_int_small z : - 2 ^ 31 <= z <= INT_MAX -> to_int z = z.
Proof.
  unfold to_int, INT_MAX. intros Hz. rewrite Z.mod_small; lia.
Qed.

Lemma size_t_add_assoc a b c :
  to_size_t (size_t_add a b + c) = to_size_t (a + (b + c)).
Proof.
  unfold size_t_add, to_size_t. rewrite Zplus_mod_idemp_l. f_equal. lia.
Qed.

Lemma total_size_nonneg (l : list Q) : 0 <= total_size l.
Proof.
  unfold total_size. induction l as [|q l IH]; cbn [foldr]; [lia|].
  pose proof (IQueue.size_range q). lia.
Qed.

(** The summing loop reads every queue from index [length l1] on, in
    order, and wraps around like [size_t]. *)
Lemma runs_add_sizes v :
  forall (l2 l1 : list Q) w size,
    elements v (dispatcher w) = l1 ++ l2 ->
    0 <= size <= SIZE_MAX ->
    runs (add_sizes v (seq (length l1) (length l2)) size) w
      (Returns (to_size_t (size + total_size l2))) w
      (calls_on v (fun _ => Size) (seq (length l1) (length l2))).
Proof.
  induction l2 as [|q l2 IH]; intros l1 w size Hw Hsize.
  - cbn. rewrite Z.add_0_r, to_size_t_small by done. apply runs_ret.
  - cbn [length seq add_sizes total_size foldr].
    assert (Hq : lookupQueue (ref v (length l1)) (dispatcher w) = Some q).
    { rewrite lookupQueue_ref, Hw. by apply list_lookup_middle. }
    run_with ltac:(apply (runs_query _ Size IQueue.size _ _ Hq)).
    specialize (IH (l1 ++ [q]) w (size_t_add size (IQueue.size q))).
    rewrite length_app in IH. cbn [length] in IH. rewrite Nat.add_1_r in IH.
    rewrite <- size_t_add_assoc.
    apply IH; [by rewrite <- app_assoc | apply to_size_t_range].
Qed.

(** The merging loop, likewise. *)
Lemma runs_add_stats v :
  forall (l2 l1 : list Q) w stats,
    elements v (dispatcher w) = l1 ++ l2 ->
    runs (add_stats v (seq (length l1) (length l2)) stats) w
      (Returns (merged_stats stats l2)) w
      (calls_on v (fun _ => Stats) (seq (length l1) (length l2))).
Proof.
  induction l2 as [|q l2 IH]; intros l1 w stats Hw.
  - cbn. apply runs_ret.
  - cbn [length seq add_stats merged_stats foldl].
    assert (Hq : lookupQueue (ref v (length l1)) (dispatcher w) = Some q).
    { rewrite lookupQueue_ref, Hw. by apply list_lookup_middle. }
    run_with ltac:(apply (runs_query _ Stats IQueue.stats _ _ Hq)).
    specialize (IH (l1 ++ [q]) w (QueueStatistics.plus stats (IQueue.stats q))).
    rewrite length_app in IH. cbn [length] in IH. rewrite Nat.add_1_r in IH.
    apply IH. by rewrite <- app_assoc.
Qed.

(** The emptiness loop returns [false] at the first queue that is not
    empty and goes on to [otherwise] when there is none; it changes
    nothing as long as [otherwise] changes nothing. *)
Lemma runs_all_empty v (otherwise : M Q bool) :
  forall (l2 l1 : list Q) w,
    elements v (dispatcher w) = l1 ++ l2 ->
    final (otherwise w) = w ->
    exists cs,
      runs (all_empty v (seq (length l1) (length l2)) otherwise) w
        (if forallb IQueue.empty l2 then result (otherwise w)
         else Returns false)
        w cs.
Proof.
  induction l2 as [|q l2 IH]; intros l1 w Hw Hpure.
  - cbn. exists (calls (otherwise w)). by unfold runs.
  - cbn [length seq all_empty forallb].
    assert (Hq : lookupQueue (ref v (length l1)) (dispatcher w) = Some q).
    { rewrite lookupQueue_ref, Hw. by apply list_lookup_middle. }
    destruct (IQueue.empty q) eqn:Hempty; cbn [andb].
    + specialize (IH (l1 ++ [q]) w).
      rewrite length_app in IH. cbn [length] in IH. rewrite Nat.add_1_r in IH.
      destruct IH as [cs IH]; [by rewrite <- app_assoc | done |].
      eexists.
      run_with ltac:(apply (runs_query _ Empty IQueue.empty _ _ Hq)).
      rewrite Hempty. cbn [negb]. apply IH.
    + eexists.
      run_with ltac:(apply (runs_query _ Empty IQueue.empty _ _ Hq)).
      rewrite Hempty. cbn [negb]. apply runs_ret.
Qed.

(** *** The aggregate queries *)

Lemma runs_coroSize_All w :
  runs (coroSize QueueId.All) w
    (Returns (to_size_t (total_size (_coroQueues (dispatcher w))))) w
    (calls_on coroQueues (fun _ => Size)
       (seq 0 (length (_coroQueues (dispatcher w))))).
Proof.
  unfold coroSize. cbn [Z.eqb QueueId.All Pos.eqb].
  run_with ltac:(apply runs_indices).
  apply (runs_add_sizes coroQueues (_coroQueues (dispatcher w)) [] w 0).
  - done.
  - unfold SIZE_MAX. lia.
Qed.

Lemma runs_ioSize_All w :
  runs (ioSize QueueId.All) w
    (Returns
       (size_t_add (to_size_t (total_size (_ioQueues (dispatcher w))))
          (IQueue.size (_sharedIoQueue (dispatcher w)))))
    w
    (calls_on ioQueues (fun _ => Size)
       (seq 0 (length (_ioQueues (dispatcher w))))
     ++ [(SharedIoQueue, Size)]).
Proof.
  unfold ioSize. cbn [Z.eqb QueueId.All Pos.eqb].
  run_with ltac:(apply runs_indices).
  run_with ltac:(apply (runs_add_sizes ioQueues (_ioQueues (dispatcher w))
                          [] w 0); [done | unfold SIZE_MAX; lia]).
  run_with ltac:(apply (runs_query SharedIoQueue Size IQueue.size w
                          (_sharedIoQueue (dispatcher w))); done).
  apply runs_ret.
Qed.

Lemma runs_coroEmpty_All w :
  exists cs,
    runs (coroEmpty QueueId.All) w
      (Returns (forallb IQueue.empty (_coroQueues (dispatcher w)))) w cs.
Proof.
  unfold coroEmpty. cbn [Z.eqb QueueId.All Pos.eqb].
  destruct (runs_all_empty coroQueues (ret true)
              (_coroQueues (dispatcher w)) [] w) as [cs Hcs]; [done..|].
  exists cs. run_with ltac:(apply runs_indices).
  cbn [length] in Hcs. cbn [ret result] in Hcs.
  by destruct (forallb IQueue.empty (_coroQueues (dispatcher w))).
Qed.

Lemma runs_ioEmpty_All w :
  exists cs,
    runs (ioEmpty QueueId.All) w
      (Returns (forallb IQueue.empty (_ioQueues (dispatcher w))
                && IQueue.empty (_sharedIoQueue (dispatcher w)))) w cs.
Proof.
  unfold ioEmpty. cbn [Z.eqb QueueId.All Pos.eqb].
  destruct (runs_all_empty ioQueues
              (query SharedIoQueue Empty IQueue.empty)
              (_ioQueues (dispatcher w)) [] w) as [cs Hcs]; [done..|].
  exists cs. run_with ltac:(apply runs_indices).
  cbn [length] in Hcs.
  by destruct (forallb IQueue.empty (_ioQueues (dispatcher w))).
Qed.

Lemma runs_coroStats_All w :
  runs (coroStats QueueId.All) w
    (Returns (merged_stats QueueStatistics.init (_coroQueues (dispatcher w))))
    w
    (calls_on coroQueues (fun _ => Stats)
       (seq 0 (length (_coroQueues (dispatcher w))))).
Proof.
  unfold coroStats. cbn [Z.eqb QueueId.All Pos.eqb].
  run_with ltac:(apply runs_indices).
  by apply (runs_add_stats coroQueues (_coroQueues (dispatcher w)) [] w).
Qed.

Lemma runs_ioStats_All w :
  runs (ioStats QueueId.All) w
    (Returns
       (QueueStatistics.plus
          (merged_stats QueueStatistics.init (_ioQueues (dispatcher w)))
          (IQueue.stats (_sharedIoQueue (dispatcher w)))))
    w
    (calls_on ioQueues (fun _ => Stats)
       (seq 0 (length (_ioQueues (dispatcher w))))
     ++ [(SharedIoQueue, Stats)]).
Proof.
  unfold ioStats. cbn [Z.eqb QueueId.All Pos.eqb].
  run_with ltac:(apply runs_indices).
  run_with ltac:(by apply (runs_add_stats ioQueues (_ioQueues (dispatcher w))
                             [] w)).
  run_with ltac:(apply (runs_query SharedIoQueue Stats IQueue.stats w
                          (_sharedIoQueue (dispatcher w))); done).
  apply runs_ret.
Qed.

Lemma runs_size_All_All w :
  runs (size QueueType.All QueueId.All) w
    (Returns
       (size_t_add
          (to_size_t (total_size (_coroQueues (dispatcher w))))
          (size_t_add (to_size_t (total_size (_ioQueues (dispatcher w))))
             (IQueue.size (_sharedIoQueue (dispatcher w))))))
    w
    (calls_on coroQueues (fun _ => Size)
       (seq 0 (length (_coroQueues (dispatcher w))))
     ++ calls_on ioQueues (fun _ => Size)
          (seq 0 (length (_ioQueues (dispatcher w))))
     ++ [(SharedIoQueue, Size)]).
Proof.
  eapply runs_calls.
  - unfold size. cbn [Z.eqb QueueId.All Pos.eqb negb].
    run_with ltac:(apply runs_ret).
    run_with ltac:(apply runs_coroSize_All).
    run_with ltac:(apply runs_ioSize_All).
    apply runs_ret.
  - cbn [app]. by rewrite app_nil_r.
Qed.

Lemma runs_empty_All_All w :
  exists cs,
    runs (empty QueueType.All QueueId.All) w
      (Returns
         (forallb IQueue.empty (_coroQueues (dispatcher w))
          && (forallb IQueue.empty (_ioQueues (dispatcher w))
              && IQueue.empty (_sharedIoQueue (dispatcher w)))))
      w cs.
Proof.
  unfold empty. cbn [Z.eqb QueueId.All Pos.eqb negb].
  destruct (runs_coroEmpty_All w) as [c1 H1].
  destruct (runs_ioEmpty_All w) as [c2 H2].
  destruct (forallb IQueue.empty (_coroQueues (dispatcher w))); cbn [andb].
  - eexists. run_with ltac:(apply runs_ret).
    run_with ltac:(apply H1). apply H2.
  - eexists. run_with ltac:(apply runs_ret).
    run_with ltac:(apply H1). apply runs_ret.
Qed.

Lemma runs_stats_All_All w :
  exists s cs, runs (stats QueueType.All QueueId.All) w (Returns s) w cs.
Proof.
  unfold stats. cbn [Z.eqb QueueId.All Pos.eqb negb].
  do 2 eexists. run_with ltac:(apply runs_ret).
  run_with ltac:(apply runs_coroStats_All).
  run_with ltac:(apply runs_ioStats_All).
  apply runs_ret.
Qed.

(** C6: in any state, [size(All, All)] is the [size_t] sum of
    [size(Coro, All)] and [size(IO, All)], and [empty(All, All)] is the
    conjunction of [empty(Coro, All)] and [empty(IO, All)]; the coroutine
    aggregates range over every coroutine queue, the IO aggregates over
    every IO queue and the shared IO queue.  None of these calls changes
    the state.  When the sizes of all queues together fit in a [size_t],
    the sums are the sums in [Z]. *)
Theorem size_and_empty_All_All w :
  let d := dispatcher w in
  let coro := to_size_t (total_size (_coroQueues d)) in
  let io :=
    to_size_t (total_size (_ioQueues d) + IQueue.size (_sharedIoQueue d)) in
  let coro_empty := forallb IQueue.empty (_coroQueues d) in
  let io_empty :=
    forallb IQueue.empty (_ioQueues d) && IQueue.empty (_sharedIoQueue d) in
  (exists cs, runs (size QueueType.Coro QueueId.All) w (Returns coro) w cs)
  /\ (exists cs, runs (size QueueType.IO QueueId.All) w (Returns io) w cs)
  /\ (exists cs,
        runs (size QueueType.All QueueId.All) w
          (Returns (size_t_add coro io)) w cs)
  /\ (total_size (_coroQueues d) + total_size (_ioQueues d)
        + IQueue.size (_sharedIoQueue d) <= SIZE_MAX ->
      coro = total_size (_coroQueues d)
      /\ io = total_size (_ioQueues d) + IQueue.size (_sharedIoQueue d)
      /\ size_t_add coro io = coro + io)
  /\ (exists cs,
        runs (empty QueueType.Coro QueueId.All) w (Returns coro_empty) w cs)
  /\ (exists cs,
        runs (empty QueueType.IO QueueId.All) w (Returns io_empty) w cs)
  /\ (exists cs,
        runs (empty QueueType.All QueueId.All) w
          (Returns (coro_empty && io_empty)) w cs).
Proof.
  intros d coro io coro_empty io_empty.
  assert (Hio : size_t_add (to_size_t (total_size (_ioQueues d)))
                  (IQueue.size (_sharedIoQueue d)) = io).
  { unfold io, size_t_add, to_size_t. by rewrite Zplus_mod_idemp_l. }
  pose proof (total_size_nonneg (_coroQueues d)) as Hcoro.
  pose proof (total_size_nonneg (_ioQueues d)) as Hios.
  pose proof (IQueue.size_range (_sharedIoQueue d)) as Hshared.
  split_and!.
  - eexists. apply runs_coroSize_All.
  - eexists. cbn [size]. rewrite <- Hio. apply runs_ioSize_All.
  - eexists. rewrite <- Hio. apply runs_size_All_All.
  - intros Hfit.
    assert (Hc : coro = total_size (_coroQueues d))
      by (apply to_size_t_small; lia).
    assert (Hi : io = total_size (_ioQueues d)
                      + IQueue.size (_sharedIoQueue d))
      by (apply to_size_t_small; lia).
    split_and!; [done | done |].
    unfold size_t_add. rewrite Hc, Hi. apply to_size_t_small. lia.
  - apply runs_coroEmpty_All.
  - apply runs_ioEmpty_All.
  - apply runs_empty_All_All.
Qed.

(** C7: with type [All], [size], [empty] and [stats] throw
    ["Cannot specify queue id"] for every queue id other than [All] and
    leave the state as it is, without a call on any queue; with queue id
    [All] each of them returns. *)
Theorem type_All_requires_id_All w :
  (forall queueId,
      queueId <> QueueId.All ->
      runs (size QueueType.All queueId) w
        (Throws (runtime_error "Cannot specify queue id")) w []
      /\ runs (empty QueueType.All queueId) w
           (Throws (runtime_error "Cannot specify queue id")) w []
      /\ runs (stats QueueType.All queueId) w
           (Throws (runtime_error "Cannot specify queue id")) w [])
  /\ (exists n cs, runs (size QueueType.All QueueId.All) w (Returns n) w cs)
  /\ (exists b cs, runs (empty QueueType.All QueueId.All) w (Returns b) w cs)
  /\ (exists s cs, runs (stats QueueType.All QueueId.All) w (Returns s) w cs).
Proof.
  split; [|split; [|split]].
  - intros queueId Hne.
    assert (Hq : (queueId =? QueueId.All) = false) by by apply Z.eqb_neq.
    unfold size, empty, stats. rewrite Hq. cbn [negb].
    split_and!; apply runs_bind_throws, runs_throw.
  - eexists _, _. apply runs_size_All_All.
  - destruct (runs_empty_All_All w) as [cs Hcs]. eauto.
  - apply runs_stats_All_All.
Qed.

(** C9: for a null task, [post] and [postAsyncIo] return at once: no
    exception, no call on any queue, and the state (every queue, its
    statistics, every task) is the one before the call. *)
Theorem null_task_is_noop w :
  runs (post None) w (Returns tt) w []
  /\ runs (postAsyncIo None) w (Returns tt) w [].
Proof. split; apply runs_ret. Qed.

(** *** Termination *)

Lemma imap_constant {A B : Type} (f : A -> B) (l : list A) :
  imap (fun _ => f) l = f <$> l.
Proof. apply imap_const. Qed.

Lemma runs_test_and_set w :
  runs test_and_set w (Returns (_terminated (dispatcher w)))
    {| dispatcher :=
         {| _coroQueues := _coroQueues (dispatcher w);
            _sharedIoQueue := _sharedIoQueue (dispatcher w);
            _ioQueues := _ioQueues (dispatcher w);
            _terminated := true |};
       taskQueueId := taskQueueId w |}
    [].
Proof. by unfold runs. Qed.

(** The first call: the whole shutdown sequence, in order. *)
Lemma runs_terminate_first w :
  _terminated (dispatcher w) = false ->
  runs terminate w (Returns tt) (terminated_world w)
    (shutdown_sequence (dispatcher w)).
Proof.
  intros Hflag. destruct w as [[cs sh ios tm] h]. cbn in Hflag. subst tm.
  eapply runs_eq.
  - unfold terminate. run_with ltac:(apply runs_test_and_set).
    cbn [dispatcher _terminated negb].
    run_with ltac:(apply runs_indices).
    run_with ltac:(apply runs_for_each).
    run_with ltac:(apply runs_indices).
    run_with ltac:(apply runs_for_each).
    by apply runs_command.
  - unfold terminated_world. cbn. by rewrite !imap_constant.
  - done.
Qed.

(** Any later call: nothing happens. *)
Lemma runs_terminate_again w :
  _terminated (dispatcher w) = true -> runs terminate w (Returns tt) w [].
Proof.
  intros Hflag. destruct w as [[cs sh ios tm] h]. cbn in Hflag. subst tm.
  by unfold runs.
Qed.

Lemma runs_terminate_times_again n w :
  _terminated (dispatcher w) = true ->
  runs (terminate_times n) w (Returns tt) w [].
Proof.
  intros Hflag. induction n as [|n IH]; cbn [terminate_times].
  - apply runs_ret.
  - run_with ltac:(by apply runs_terminate_again). apply IH.
Qed.

Lemma runs_terminate_times_first n w :
  _terminated (dispatcher w) = false ->
  runs (terminate_times (Datatypes.S n)) w (Returns tt) (terminated_world w)
    (shutdown_sequence (dispatcher w)).
Proof.
  intros Hflag. cbn [terminate_times]. eapply runs_calls.
  - run_with ltac:(by apply runs_terminate_first).
    by apply runs_terminate_times_again.
  - apply app_nil_r.
Qed.

#[local] Instance call_on_inj v (m : Method) :
  Inj (=) (=) (fun i : nat => (ref v i, m)).
Proof. intros i j Heq. destruct v; by inversion Heq. Qed.

Lemma NoDup_shutdown_sequence (d : t Q) : NoDup (shutdown_sequence d).
Proof.
  unfold shutdown_sequence, calls_on. rewrite !NoDup_app. split_and!.
  - apply (NoDup_fmap_2 _), NoDup_seq.
  - intros c [i [-> _]]%list_elem_of_fmap.
    rewrite elem_of_app, list_elem_of_fmap, list_elem_of_singleton.
    intros [[j [Heq _]]|Heq]; done.
  - apply (NoDup_fmap_2 _), NoDup_seq.
  - intros c [i [-> _]]%list_elem_of_fmap.
    by rewrite list_elem_of_singleton.
  - apply NoDup_singleton.
Qed.

Lemma elem_of_shutdown_sequence (d : t Q) r :
  (r, Terminate) ∈ shutdown_sequence d <-> is_Some (lookupQueue r d).
Proof.
  unfold shutdown_sequence, calls_on.
  rewrite !elem_of_app, !list_elem_of_fmap, list_elem_of_singleton.
  setoid_rewrite elem_of_seq. destruct r as [i|i|]; cbn [lookupQueue].
  - rewrite lookup_lt_is_Some. split.
    + intros [[j [Heq Hj]]|[[j [Heq Hj]]|Heq]]; [|done..].
      inversion Heq. lia.
    + intros Hi. left. exists i. split; [done | lia].
  - rewrite lookup_lt_is_Some. split.
    + intros [[j [Heq Hj]]|[[j [Heq Hj]]|Heq]]; [done| |done].
      inversion Heq. lia.
    + intros Hi. right. left. exists i. split; [done | lia].
  - split; [eauto | intros _; by right; right].
Qed.

(** C3: starting from a dispatcher that has not been terminated, any
    number of calls of [terminate], one or more, with or without the
    destructor's call at the end, runs the shutdown sequence exactly once:
    the calls made are [terminate] on every coroutine queue, then on every
    IO queue, then on the shared IO queue, each queue once; every call
    after the first makes no call on a queue and leaves the state
    unchanged. *)
Theorem terminate_is_one_shot w n :
  _terminated (dispatcher w) = false ->
  runs (terminate_times (Datatypes.S n)) w (Returns tt) (terminated_world w)
    (shutdown_sequence (dispatcher w))
  /\ runs (bind (terminate_times n) (fun _ => destructor)) w (Returns tt)
       (terminated_world w) (shutdown_sequence (dispatcher w))
  /\ NoDup (shutdown_sequence (dispatcher w))
  /\ (forall r,
        (r, Terminate) ∈ shutdown_sequence (dispatcher w)
        <-> is_Some (lookupQueue r (dispatcher w)))
  /\ runs terminate (terminated_world w) (Returns tt) (terminated_world w) []
  /\ (forall w',
        _terminated (dispatcher w') = true ->
        runs terminate w' (Returns tt) w' []).
Proof.
  intros Hflag. split_and!.
  - by apply runs_terminate_times_first.
  - unfold destructor. destruct n as [|n].
    + cbn [terminate_times]. run_with ltac:(apply runs_ret).
      by apply runs_terminate_first.
    + eapply runs_calls.
      * run_with ltac:(by apply runs_terminate_times_first).
        by apply runs_terminate_again.
      * apply app_nil_r.
  - apply NoDup_shutdown_sequence.
  - apply elem_of_shutdown_sequence.
  - by apply runs_terminate_again.
  - apply runs_terminate_again.
Qed.

(** *** Posting *)

Lemma runs_setQueueId task id w :
  runs (setQueueId task id) w (Returns tt)
    {| dispatcher := dispatcher w;
       taskQueueId := <[task := id]> (taskQueueId w) |}
    [].
Proof. by unfold runs. Qed.

Lemma runs_undefined {A : Type} w : runs (undefined (A:=A)) w Undefined w [].
Proof. by unfold runs. Qed.

(** [v[n]] inside the vector, and outside. *)
Lemma runs_subscript v n w :
  0 <= n < Z.of_nat (length (elements v (dispatcher w))) ->
  n <= SIZE_MAX ->
  runs (subscript v n) w (Returns (ref v (Z.to_nat n))) w [].
Proof.
  intros Hn Hmax. unfold subscript.
  run_with ltac:(apply runs_vector_size).
  rewrite to_size_t_small by lia.
  destruct (Z.ltb_spec n (Z.of_nat (length (elements v (dispatcher w)))));
    [apply runs_ret | lia].
Qed.

Lemma runs_subscript_outside v n w :
  Z.of_nat (length (elements v (dispatcher w))) <= to_size_t n ->
  runs (subscript v n) w Undefined w [].
Proof.
  intros Hn. unfold subscript.
  run_with ltac:(apply runs_vector_size).
  destruct (Z.ltb_spec (to_size_t n)
              (Z.of_nat (length (elements v (dispatcher w)))));
    [lia | apply runs_undefined].
Qed.

(** C4: for a task whose queue id is [Any], [postAsyncIo] enqueues the
    task on the shared IO queue, then calls [signalEmptyCondition(false)]
    on every IO queue in index order, and returns; no IO queue of the
    vector receives the task, and the task's queue id is not written: it
    is still [Any] after the call. *)
Theorem postAsyncIo_Any_uses_shared_queue w task :
  taskQueueId w task = QueueId.Any ->
  let d := dispatcher w in
  runs (postAsyncIo (Some task)) w (Returns tt)
    {| dispatcher :=
         {| _coroQueues := _coroQueues d;
            _sharedIoQueue := IQueue.enqueue task (_sharedIoQueue d);
            _ioQueues := IQueue.signalEmptyCondition false <$> _ioQueues d;
            _terminated := _terminated d |};
       taskQueueId := taskQueueId w |}
    ((SharedIoQueue, Enqueue task)
       :: calls_on ioQueues (fun _ => SignalEmptyCondition false)
            (seq 0 (length (_ioQueues d))))
  /\ taskQueueId (final (postAsyncIo (Some task) w)) task = QueueId.Any.
Proof.
  intros Hany d.
  assert (Hruns :
    runs (postAsyncIo (Some task)) w (Returns tt)
      {| dispatcher :=
           {| _coroQueues := _coroQueues d;
              _sharedIoQueue := IQueue.enqueue task (_sharedIoQueue d);
              _ioQueues := IQueue.signalEmptyCondition false <$> _ioQueues d;
              _terminated := _terminated d |};
         taskQueueId := taskQueueId w |}
      ((SharedIoQueue, Enqueue task)
         :: calls_on ioQueues (fun _ => SignalEmptyCondition false)
              (seq 0 (length (_ioQueues d))))).
  { subst d. destruct w as [[cs sh ios tm] h]. cbn in Hany.
    eapply runs_eq.
    - unfold postAsyncIo. run_with ltac:(apply runs_getQueueId).
      cbn [taskQueueId]. rewrite Hany. cbn [Z.eqb QueueId.Any Pos.eqb].
      run_with ltac:(by apply runs_command).
      run_with ltac:(apply runs_indices).
      apply runs_for_each.
    - cbn. by rewrite imap_constant.
    - done. }
  split; [done|].
  destruct Hruns as (_ & -> & _). done.
Qed.

(** C5: with at most [INT_MAX] coroutine queues, [post] of a task whose
    queue id is at or above the number of coroutine queues throws
    ["Queue id out of bounds"] without a call on any queue, and the state
    (every queue, the task's queue id) is the one before the call; for a
    queue id inside the range the task is enqueued on the queue with that
    index, by the only call made, and the task's queue id stays what it
    was. *)
Theorem post_concrete_id w task :
  let d := dispatcher w in
  let id := taskQueueId w task in
  Z.of_nat (length (_coroQueues d)) <= INT_MAX ->
  (Z.of_nat (length (_coroQueues d)) <= id ->
   runs (post (Some task)) w
     (Throws (runtime_error "Queue id out of bounds")) w [])
  /\ (0 <= id < Z.of_nat (length (_coroQueues d)) ->
      exists q,
        _coroQueues d !! Z.to_nat id = Some q
        /\ runs (post (Some task)) w (Returns tt)
             (with_elements coroQueues
                (<[Z.to_nat id := IQueue.enqueue task q]> (_coroQueues d)) w)
             [(CoroQueue (Z.to_nat id), Enqueue task)]
        /\ taskQueueId (final (post (Some task) w)) task = id).
Proof.
  intros d id Hcount. unfold INT_MAX in Hcount.
  assert (Hint : to_int (Z.of_nat (length (_coroQueues d)))
                 = Z.of_nat (length (_coroQueues d)))
    by (apply to_int_small; unfold INT_MAX; lia).
  split.
  - intros Hid.
    assert (Hne : (id =? QueueId.Any) = false)
      by (apply Z.eqb_neq; unfold QueueId.Any; lia).
    unfold post. run_with ltac:(apply runs_getQueueId).
    fold id. rewrite Hne.
    apply runs_bind_throws.
    run_with ltac:(apply runs_getQueueId).
    run_with ltac:(apply runs_vector_size).
    cbn [elements]. fold d id. rewrite Hint.
    destruct (Z.geb_spec id (Z.of_nat (length (_coroQueues d)))); [|lia].
    apply runs_throw.
  - intros Hid.
    assert (Hne : (id =? QueueId.Any) = false)
      by (apply Z.eqb_neq; unfold QueueId.Any; lia).
    destruct (lookup_lt_is_Some_2 (_coroQueues d) (Z.to_nat id)) as [q Hq];
      [lia|].
    exists q. split; [done|].
    assert (Hruns :
      runs (post (Some task)) w (Returns tt)
        (with_elements coroQueues
           (<[Z.to_nat id := IQueue.enqueue task q]> (_coroQueues d)) w)
        [(CoroQueue (Z.to_nat id), Enqueue task)]).
    { unfold post. run_with ltac:(apply runs_getQueueId).
      fold id. rewrite Hne.
      run_with ltac:(
        run_with ltac:(apply runs_getQueueId);
        run_with ltac:(apply runs_vector_size);
        cbn [elements]; fold d id; rewrite Hint;
        destruct (Z.geb_spec id (Z.of_nat (length (_coroQueues d))));
        [lia | apply runs_ret]).
      run_with ltac:(apply runs_getQueueId).
      fold id.
      run_with ltac:(apply runs_subscript; cbn [elements]; fold d;
                     unfold SIZE_MAX; lia).
      by apply (runs_command_ref coroQueues). }
    split; [done|].
    destruct Hruns as (_ & -> & _). done.
Qed.

(** The loop of [post] from index [length l1] on, after at least one
    queue has been read: [index] is the earliest shortest queue so far,
    [numTasks] its size, and no size 0 has been seen. *)
Lemma runs_shortest :
  forall (l2 l1 : list Q) w numTasks (index : nat),
    _coroQueues (dispatcher w) = l1 ++ l2 ->
    numTasks <> 0 ->
    (exists q, l1 !! index = Some q /\ IQueue.size q = numTasks) ->
    (forall j qj, l1 !! j = Some qj -> numTasks <= IQueue.size qj) ->
    (forall j qj,
        l1 !! j = Some qj -> (j < index)%nat -> numTasks < IQueue.size qj) ->
    exists (index' scanned : nat),
      earliest_shortest (l1 ++ l2) index'
      /\ (length l1 <= scanned <= length l1 + length l2)%nat
      /\ scan_stops_at (l1 ++ l2) scanned
      /\ runs (shortest (seq (length l1) (length l2)) numTasks
                 (Z.of_nat index))
           w (Returns (Z.of_nat index')) w
           (calls_on coroQueues (fun _ => Size)
              (seq (length l1) (scanned - length l1))).
Proof.
  induction l2 as [|q l2 IH];
    intros l1 w numTasks index Hw Hnz (qi & Hqi & Hsize) Hmin Hstrict.
  - exists index, (length l1). rewrite app_nil_r, Nat.sub_diag.
    split_and!; [| lia | lia | | apply runs_ret].
    + exists qi. split_and!; [done | |].
      * intros j qj Hj. rewrite Hsize. eauto.
      * intros j qj Hj Hlt. rewrite Hsize. eauto.
    + split; [|by left].
      intros j qj Hj _. pose proof (Hmin j qj Hj).
      pose proof (IQueue.size_range qj). pose proof (IQueue.size_range qi).
      lia.
  - pose proof (IQueue.size_range q) as Hq.
    pose proof (IQueue.size_range qi) as Hqi_range.
    assert (Hlookup : lookupQueue (ref coroQueues (length l1)) (dispatcher w)
                      = Some q).
    { cbn [ref lookupQueue]. rewrite Hw. by apply list_lookup_middle. }
    assert (Hpos : forall j qj, l1 !! j = Some qj -> 0 < IQueue.size qj).
    { intros j qj Hj. pose proof (Hmin j qj Hj). lia. }
    cbn [length seq shortest].
    destruct (Z.ltb_spec (IQueue.size q) numTasks) as [Hless|Hmore].
    + destruct (Z.eqb_spec (IQueue.size q) 0) as [Hzero|Hnonzero].
      * (* an empty queue: the scan ends here *)
        exists (length l1), (Datatypes.S (length l1)).
        replace (Datatypes.S (length l1) - length l1)%nat with 1%nat by lia.
        split_and!; [| lia | lia | |].
        -- exists q. split_and!; [by apply list_lookup_middle | |].
           ++ intros j qj _. pose proof (IQueue.size_range qj). lia.
           ++ intros j qj Hj Hlt. rewrite lookup_app_l in Hj by done.
              rewrite Hzero. eauto.
        -- split.
           ++ intros j qj Hj Hlt. rewrite lookup_app_l in Hj by lia.
              pose proof (Hpos j qj Hj). lia.
           ++ right. exists q. cbn. rewrite Nat.sub_0_r.
              split; [by apply list_lookup_middle | done].
        -- run_with ltac:(apply (runs_query _ Size IQueue.size _ _ Hlookup)).
           destruct (Z.ltb_spec (IQueue.size q) numTasks); [|lia].
           destruct (Z.eqb_spec (IQueue.size q) 0); [|lia].
           apply runs_ret.
      * (* a new shortest queue *)
        destruct (IH (l1 ++ [q]) w (IQueue.size q) (length l1))
          as (index' & scanned & Hbest & Hscanned & Hstop & Hruns).
        -- by rewrite <- app_assoc.
        -- done.
        -- exists q. split; [by apply list_lookup_middle | done].
        -- intros j qj [[_ Hj]|[_ <-]]%lookup_snoc_Some; [|lia].
           pose proof (Hmin j qj Hj). lia.
        -- intros j qj [[_ Hj]|[-> _]]%lookup_snoc_Some Hlt; [|lia].
           pose proof (Hmin j qj Hj). lia.
        -- rewrite length_app in Hscanned, Hruns. cbn [length] in *.
           rewrite Nat.add_1_r in Hruns. rewrite <- app_assoc in Hbest, Hstop.
           exists index', scanned. split_and!; [done | lia | lia | done |].
           replace (scanned - length l1)%nat
             with (Datatypes.S (scanned - Datatypes.S (length l1))) by lia.
           cbn [seq].
           run_with ltac:(apply (runs_query _ Size IQueue.size _ _ Hlookup)).
           destruct (Z.ltb_spec (IQueue.size q) numTasks); [|lia].
           destruct (Z.eqb_spec (IQueue.size q) 0); [lia|].
           apply Hruns.
    + (* not shorter than the shortest so far *)
      destruct (IH (l1 ++ [q]) w numTasks index)
        as (index' & scanned & Hbest & Hscanned & Hstop & Hruns).
      * by rewrite <- app_assoc.
      * done.
      * exists qi. split; [|done].
        rewrite lookup_app_l; [done | by eapply lookup_lt_Some].
      * intros j qj [[_ Hj]|[_ <-]]%lookup_snoc_Some; [eauto | lia].
      * intros j qj [[_ Hj]|[-> _]]%lookup_snoc_Some Hlt; [eauto|].
        apply lookup_lt_Some in Hqi. lia.
      * rewrite length_app in Hscanned, Hruns. cbn [length] in *.
        rewrite Nat.add_1_r in Hruns. rewrite <- app_assoc in Hbest, Hstop.
        exists index', scanned. split_and!; [done | lia | lia | done |].
        replace (scanned - length l1)%nat
          with (Datatypes.S (scanned - Datatypes.S (length l1))) by lia.
        cbn [seq].
        run_with ltac:(apply (runs_query _ Size IQueue.size _ _ Hlookup)).
        destruct (Z.ltb_spec (IQueue.size q) numTasks); [lia|].
        destruct (Z.eqb_spec numTasks 0); [lia|].
        apply Hruns.
Qed.

(** The whole loop of [post], from [numTasks = SIZE_MAX] and
    [index = 0], over a vector that is not empty. *)
Lemma runs_shortest_initial w :
  _coroQueues (dispatcher w) <> [] ->
  exists (index scanned : nat),
    earliest_shortest (_coroQueues (dispatcher w)) index
    /\ (1 <= scanned <= length (_coroQueues (dispatcher w)))%nat
    /\ scan_stops_at (_coroQueues (dispatcher w)) scanned
    /\ runs (shortest (seq 0 (length (_coroQueues (dispatcher w))))
               SIZE_MAX 0)
         w (Returns (Z.of_nat index)) w
         (calls_on coroQueues (fun _ => Size) (seq 0 scanned)).
Proof.
  destruct (_coroQueues (dispatcher w)) as [|q0 rest] eqn:Hw; [done|].
  intros _. pose proof (IQueue.size_range q0) as Hq0.
  assert (Hlookup : lookupQueue (ref coroQueues 0) (dispatcher w) = Some q0)
    by (cbn [ref lookupQueue]; by rewrite Hw).
  assert (HnumTasks :
    (if IQueue.size q0 <? SIZE_MAX then IQueue.size q0 else SIZE_MAX)
    = IQueue.size q0)
    by (destruct (Z.ltb_spec (IQueue.size q0) SIZE_MAX); lia).
  assert (Hindex :
    (if IQueue.size q0 <? SIZE_MAX then Z.of_nat 0 else 0) = Z.of_nat 0)
    by (by destruct (IQueue.size q0 <? SIZE_MAX)).
  destruct (Z.eqb_spec (IQueue.size q0) 0) as [Hzero|Hnonzero].
  - exists 0%nat, 1%nat. cbn [length]. split_and!; [| lia | lia | |].
    + exists q0. split_and!; [done | |].
      * intros j qj _. pose proof (IQueue.size_range qj). lia.
      * intros j qj _ Hlt. lia.
    + split; [intros j qj _ Hlt; lia|].
      right. exists q0. done.
    + cbn [seq shortest].
      run_with ltac:(apply (runs_query _ Size IQueue.size _ _ Hlookup)).
      rewrite HnumTasks, Hindex.
      destruct (Z.eqb_spec (IQueue.size q0) 0); [apply runs_ret | done].
  - destruct (runs_shortest rest [q0] w (IQueue.size q0) 0)
      as (index & scanned & Hbest & Hscanned & Hstop & Hruns).
    + done.
    + done.
    + by exists q0.
    + intros [|j] qj [= <-]. lia.
    + intros j qj _ Hlt. lia.
    + cbn [length app] in *. exists index, scanned.
      split_and!; [done | lia | lia | done |].
      replace scanned with (Datatypes.S (scanned - 1)) at 1 by lia.
      cbn [seq shortest].
      run_with ltac:(apply (runs_query _ Size IQueue.size _ _ Hlookup)).
      rewrite HnumTasks, Hindex.
      destruct (Z.eqb_spec (IQueue.size q0) 0); [done | apply Hruns].
Qed.

(** C1: with at least one and at most [INT_MAX] coroutine queues, [post]
    of a task whose queue id is [Any] reads the sizes of the coroutine
    queues in index order and stops after the first size 0; it picks the
    queue of minimum size, the earliest one of that size, writes its index
    into the task, and enqueues the task on it.  On sizes [3, 1, 1, 5] the
    index is 1, and when every queue has size 0 it is 0. *)
Theorem post_Any_picks_shortest_queue w task :
  let d := dispatcher w in
  taskQueueId w task = QueueId.Any ->
  _coroQueues d <> [] ->
  Z.of_nat (length (_coroQueues d)) <= INT_MAX ->
  exists (index scanned : nat) (q : Q),
    earliest_shortest (_coroQueues d) index
    /\ (1 <= scanned <= length (_coroQueues d))%nat
    /\ scan_stops_at (_coroQueues d) scanned
    /\ _coroQueues d !! index = Some q
    /\ runs (post (Some task)) w (Returns tt)
         {| dispatcher :=
              {| _coroQueues :=
                   <[index := IQueue.enqueue task q]> (_coroQueues d);
                 _sharedIoQueue := _sharedIoQueue d;
                 _ioQueues := _ioQueues d;
                 _terminated := _terminated d |};
            taskQueueId := <[task := Z.of_nat index]> (taskQueueId w) |}
         (calls_on coroQueues (fun _ => Size) (seq 0 scanned)
          ++ [(CoroQueue index, Enqueue task)])
    /\ (IQueue.size <$> _coroQueues d = [3; 1; 1; 5] -> index = 1%nat)
    /\ ((forall q', q' ∈ _coroQueues d -> IQueue.size q' = 0) ->
        index = 0%nat).
Proof.
  intros d Hany Hnonempty Hcount.
  destruct (runs_shortest_initial w Hnonempty)
    as (index & scanned & Hbest & Hscanned & Hstop & Hscan).
  fold d in Hbest, Hscanned, Hstop, Hscan.
  destruct Hbest as (q & Hq & Hmin & Hstrict).
  pose proof (lookup_lt_Some _ _ _ Hq) as Hindex.
  exists index, scanned, q.
  split_and!; [by exists q | lia | lia | done | done | | |].
  - (* the call *)
    unfold INT_MAX in Hcount. eapply runs_eq.
    + unfold post. run_with ltac:(apply runs_getQueueId).
      rewrite Hany. cbn [Z.eqb QueueId.Any Pos.eqb].
      run_with ltac:(
        run_with ltac:(apply runs_indices);
        cbn [elements]; fold d;
        run_with ltac:(apply Hscan);
        apply runs_setQueueId).
      rewrite to_int_small by (unfold INT_MAX; lia).
      run_with ltac:(apply runs_getQueueId).
      cbn [taskQueueId]. rewrite fn_lookup_insert.
      run_with ltac:(apply runs_subscript; cbn [elements dispatcher]; fold d;
                     unfold SIZE_MAX; lia).
      rewrite Nat2Z.id.
      apply runs_command. cbn [ref lookupQueue dispatcher]. apply Hq.
    + done.
    + cbn [app]. by rewrite app_nil_r.
  - (* sizes 3, 1, 1, 5 *)
    intros Hsizes.
    destruct (_coroQueues d) as [|q0 [|q1 [|q2 [|q3 [|q4 rest]]]]];
      try discriminate Hsizes.
    injection Hsizes as H0' H1' H2' H3'.
    pose proof (Hmin 1%nat q1 eq_refl) as Hle.
    destruct index as [|[|[|[|index]]]]; cbn in Hq; try discriminate Hq;
      injection Hq as <-.
    + lia.
    + done.
    + pose proof (Hstrict 1%nat q1 eq_refl). lia.
    + lia.
  - (* every queue empty *)
    intros Hzero. destruct index as [|index]; [done|].
    destruct (_coroQueues d) as [|q0 rest] eqn:Hcs; [done|].
    pose proof (Hstrict 0%nat q0 eq_refl) as Hlt.
    pose proof (Hzero q0 ltac:(left)) as Hq0.
    pose proof (IQueue.size_range q). lia.
Qed.


(** *** Construction *)

Lemma imap_replicate {A B : Type} (f : nat -> A -> B) (x : A) :
  forall (k i : nat),
    imap (fun j => f (i + j)%nat) (replicate k x)
    = (fun j => f j x) <$> seq i k.
Proof.
  induction k as [|k IH]; intros i; [done|].
  cbn [replicate seq]. rewrite imap_cons, fmap_cons, Nat.add_0_r. f_equal.
  rewrite <- IH. apply imap_ext. intros j y _. cbn.
  by rewrite Nat.add_succ_r.
Qed.

Lemma coroQueues_count hardware_concurrency numCoroutineThreads numIoThreads :
  0 <= hardware_concurrency <= UINT_MAX ->
  numCoroutineThreads = -1 \/ 0 <= numCoroutineThreads <= INT_MAX ->
  length (_coroQueues
            (members (Q:=Q) hardware_concurrency numCoroutineThreads
               numIoThreads))
  = Z.to_nat (if numCoroutineThreads =? -1 then hardware_concurrency
              else numCoroutineThreads).
Proof.
  unfold UINT_MAX, INT_MAX. intros Hhw Hn. cbn [members _coroQueues].
  rewrite length_replicate. f_equal.
  destruct (Z.eqb_spec numCoroutineThreads (-1)).
  - apply to_size_t_small. unfold SIZE_MAX. lia.
  - unfold to_unsigned. rewrite (Z.mod_small numCoroutineThreads) by lia.
    apply to_size_t_small. unfold SIZE_MAX. lia.
Qed.

(** C8: for a hardware concurrency that fits [unsigned int], a number of
    coroutine threads that is -1 or between 0 and [INT_MAX], and a number
    of IO threads between 0 and [INT_MAX]: the constructor makes
    hardware-concurrency many coroutine queues for -1 and
    [numCoroutineThreads] many otherwise.  Without pinning it returns,
    whatever the hardware concurrency, and makes no call on a queue.  With
    pinning it throws ["Number of queues exceeds cores."] exactly when
    there are more coroutine queues than hardware units, before any call
    on a queue, and otherwise returns after calling [pinToCore(i)] on
    coroutine queue [i] for every index [i], in index order. *)
Theorem construction hardware_concurrency numCoroutineThreads numIoThreads
    pinCoroutineThreadsToCores tasks :
  0 <= hardware_concurrency <= UINT_MAX ->
  numCoroutineThreads = -1 \/ 0 <= numCoroutineThreads <= INT_MAX ->
  0 <= numIoThreads <= INT_MAX ->
  let count :=
    if numCoroutineThreads =? -1 then hardware_concurrency
    else numCoroutineThreads in
  let initial : t Q :=
    members hardware_concurrency numCoroutineThreads numIoThreads in
  let o : Outcome Q unit :=
    new hardware_concurrency numCoroutineThreads numIoThreads
      pinCoroutineThreadsToCores tasks in
  _coroQueues initial = replicate (Z.to_nat count) IQueue.newTaskQueue
  /\ (pinCoroutineThreadsToCores = false ->
      result o = Returns tt
      /\ final o = {| dispatcher := initial; taskQueueId := tasks |}
      /\ calls o = [])
  /\ (pinCoroutineThreadsToCores = true ->
      (result o = Throws (runtime_error "Number of queues exceeds cores.")
       <-> hardware_concurrency < count)
      /\ (hardware_concurrency < count -> calls o = [])
      /\ (count <= hardware_concurrency ->
          result o = Returns tt
          /\ calls o
             = calls_on coroQueues (fun i => PinToCore (Z.of_nat i))
                 (seq 0 (Z.to_nat count))
          /\ final o
             = {| dispatcher :=
                    {| _coroQueues :=
                         (fun i =>
                            IQueue.pinToCore (Z.of_nat i) IQueue.newTaskQueue)
                           <$> seq 0 (Z.to_nat count);
                       _sharedIoQueue := _sharedIoQueue initial;
                       _ioQueues := _ioQueues initial;
                       _terminated := false |};
                  taskQueueId := tasks |})).
Proof.
  intros Hhw Hn Hm count initial o.
  pose proof (coroQueues_count hardware_concurrency numCoroutineThreads
                numIoThreads Hhw Hn) as Hlen.
  fold count initial in Hlen.
  assert (Hcount : 0 <= count)
    by (subst count; destruct (Z.eqb_spec numCoroutineThreads (-1)); lia).
  assert (Hqueues :
    _coroQueues initial = replicate (Z.to_nat count) IQueue.newTaskQueue).
  { rewrite <- Hlen. cbn [initial members _coroQueues].
    by rewrite length_replicate. }
  split; [done|]. split.
  - intros ->. done.
  - intros ->.
    set (w0 := {| dispatcher := initial; taskQueueId := tasks |}).
    assert (Hsize : Z.of_nat (length (elements coroQueues (dispatcher w0)))
                    = count) by (cbn [elements w0 dispatcher]; lia).
    destruct (Z.gtb_spec count hardware_concurrency) as [Hmore|Hfits].
    + assert (Hruns :
        runs (constructor_body hardware_concurrency true) w0
          (Throws (runtime_error "Number of queues exceeds cores.")) w0 []).
      { unfold constructor_body. run_with ltac:(apply runs_vector_size).
        rewrite Hsize. apply runs_bind_throws.
        destruct (Z.gtb_spec count hardware_concurrency); [|lia].
        apply runs_throw. }
      destruct Hruns as (Hr & Hf & Hc).
      split_and!; [done | done | lia].
    + assert (Hruns :
        runs (constructor_body hardware_concurrency true) w0 (Returns tt)
          (with_elements coroQueues
             (imap (fun i => IQueue.pinToCore (Z.of_nat i))
                (elements coroQueues (dispatcher w0))) w0)
          (calls_on coroQueues (fun i => PinToCore (Z.of_nat i))
             (seq 0 (length (elements coroQueues (dispatcher w0)))))).
      { unfold constructor_body. run_with ltac:(apply runs_vector_size).
        rewrite Hsize.
        run_with ltac:(
          destruct (Z.gtb_spec count hardware_concurrency);
          [lia | apply runs_ret]).
        run_with ltac:(apply runs_indices).
        apply (runs_for_each coroQueues
                 (fun i => PinToCore (Z.of_nat i))
                 (fun i => IQueue.pinToCore (Z.of_nat i))). }
      destruct Hruns as (Hr & Hf & Hc).
      split_and!.
      * split; [|lia]. unfold o, new. fold initial w0. by rewrite Hr.
      * lia.
      * intros _. unfold o, new. fold initial w0.
        rewrite Hr, Hf, Hc. cbn [elements w0 dispatcher]. rewrite Hlen.
        split_and!; [done | done |].
        unfold with_elements. cbn [dispatcher taskQueueId _sharedIoQueue
          _ioQueues _terminated]. rewrite Hqueues.
        rewrite <- (imap_replicate
                      (fun i => IQueue.pinToCore (Z.of_nat i))
                      IQueue.newTaskQueue (Z.to_nat count) 0).
        done.
Qed.

(** *** Ids that the checks let through, or stop, wrongly *)

Lemma to_size_t_negative z : - 2 ^ 31 <= z < 0 -> to_size_t z = z + 2 ^ 64.
Proof.
  intros Hz. unfold to_size_t. symmetry.
  apply (Z.mod_unique _ _ (-1)); lia.
Qed.

(** C2 (what [ioStats] does instead): the id is checked against the
    number of coroutine queues and then used as an index into the IO
    queues.  With at most [INT_MAX] queues of each kind, an id that
    designates an IO queue but no coroutine queue is refused with
    ["Invalid queue id"], and an id that designates a coroutine queue but
    no IO queue passes the check and indexes [_ioQueues] outside its
    bounds. *)
Theorem ioStats_checks_the_other_vector w queueId :
  let d := dispatcher w in
  Z.of_nat (length (_coroQueues d)) <= INT_MAX ->
  Z.of_nat (length (_ioQueues d)) <= INT_MAX ->
  (Z.of_nat (length (_coroQueues d)) <= queueId
     < Z.of_nat (length (_ioQueues d)) ->
   runs (ioStats queueId) w (Throws (runtime_error "Invalid queue id")) w [])
  /\ (Z.of_nat (length (_ioQueues d)) <= queueId
        < Z.of_nat (length (_coroQueues d)) ->
      runs (ioStats queueId) w Undefined w []).
Proof.
  intros d Hcoro Hio. unfold INT_MAX in *.
  assert (Hint : to_int (Z.of_nat (length (_coroQueues d)))
                 = Z.of_nat (length (_coroQueues d)))
    by (apply to_int_small; unfold INT_MAX; lia).
  split; intros Hid.
  - unfold ioStats.
    destruct (Z.eqb_spec queueId QueueId.All) as [HAll|_];
      [unfold QueueId.All in HAll; lia|].
    destruct (Z.eqb_spec queueId QueueId.Any) as [HAny|_];
      [unfold QueueId.Any in HAny; lia|].
    run_with ltac:(apply runs_vector_size).
    cbn [elements]. fold d. rewrite Hint.
    apply runs_bind_throws.
    destruct (Z.geb_spec queueId (Z.of_nat (length (_coroQueues d))));
      [|lia].
    apply runs_throw.
  - unfold ioStats.
    destruct (Z.eqb_spec queueId QueueId.All) as [HAll|_];
      [unfold QueueId.All in HAll; lia|].
    destruct (Z.eqb_spec queueId QueueId.Any) as [HAny|_];
      [unfold QueueId.Any in HAny; lia|].
    run_with ltac:(apply runs_vector_size).
    cbn [elements]. fold d. rewrite Hint.
    run_with ltac:(
      destruct (Z.geb_spec queueId (Z.of_nat (length (_coroQueues d))));
      [lia|];
      destruct (Z.ltb_spec queueId 0); [lia|];
      apply runs_ret).
    apply runs_bind_undefined, runs_subscript_outside.
    cbn [elements]. fold d. rewrite to_size_t_small by (unfold SIZE_MAX; lia).
    lia.
Qed.

(** C10 (what the checks in [post] and [postAsyncIo] do instead): only
    ids at or above the size of the vector are refused.  With at most
    [INT_MAX] queues of each kind, a task whose queue id is negative and
    not [Any], [All = -1] for one, passes the check without an exception
    and the vector is indexed outside its bounds. *)
Theorem negative_id_passes_the_bounds_check w task :
  let d := dispatcher w in
  let id := taskQueueId w task in
  Z.of_nat (length (_coroQueues d)) <= INT_MAX ->
  Z.of_nat (length (_ioQueues d)) <= INT_MAX ->
  - 2 ^ 31 <= id < 0 ->
  id <> QueueId.Any ->
  runs (post (Some task)) w Undefined w []
  /\ runs (postAsyncIo (Some task)) w Undefined w [].
Proof.
  intros d id Hcoro Hio Hid Hany. unfold INT_MAX in *.
  assert (Hne : (id =? QueueId.Any) = false) by by apply Z.eqb_neq.
  split.
  - unfold post. run_with ltac:(apply runs_getQueueId).
    fold id. rewrite Hne.
    run_with ltac:(
      run_with ltac:(apply runs_getQueueId);
      run_with ltac:(apply runs_vector_size);
      cbn [elements]; fold d id;
      rewrite to_int_small by (unfold INT_MAX; lia);
      destruct (Z.geb_spec id (Z.of_nat (length (_coroQueues d))));
      [lia | apply runs_ret]).
    run_with ltac:(apply runs_getQueueId).
    fold id. apply runs_bind_undefined, runs_subscript_outside.
    cbn [elements]. fold d. rewrite to_size_t_negative by done. lia.
  - unfold postAsyncIo. run_with ltac:(apply runs_getQueueId).
    fold id. rewrite Hne.
    run_with ltac:(apply runs_getQueueId).
    run_with ltac:(apply runs_vector_size).
    cbn [elements]. fold d id.
    rewrite to_int_small by (unfold INT_MAX; lia).
    run_with ltac:(
      destruct (Z.geb_spec id (Z.of_nat (length (_ioQueues d))));
      [lia | apply runs_ret]).
    run_with ltac:(apply runs_getQueueId).
    fold id. apply runs_bind_undefined, runs_subscript_outside.
    cbn [elements]. fold d. rewrite to_size_t_negative by done. lia.
Qed.

(** *** Queries by queue id *)

(** [v.at(n).method()] for a [const] method: inside the vector the one
    call, outside [std::out_of_range] and no call. *)
Lemma runs_at_query {A : Type} v n m (f : Q -> A) w :
  (forall q,
      elements v (dispatcher w) !! Z.to_nat (to_size_t n) = Some q ->
      runs (bind (at_ v n) (fun r => query r m f)) w (Returns (f q)) w
        [(ref v (Z.to_nat (to_size_t n)), m)])
  /\ (Z.of_nat (length (elements v (dispatcher w))) <= to_size_t n ->
      runs (bind (at_ v n) (fun r => query r m f)) w (Throws out_of_range)
        w []).
Proof.
  pose proof (to_size_t_range n) as Hrange. split.
  - intros q Hq. pose proof (lookup_lt_Some _ _ _ Hq) as Hlt.
    run_with ltac:(
      unfold at_; run_with ltac:(apply runs_vector_size);
      destruct (Z.ltb_spec (to_size_t n)
                  (Z.of_nat (length (elements v (dispatcher w)))));
      [apply runs_ret | lia]).
    apply runs_query. by rewrite lookupQueue_ref.
  - intros Hout. apply runs_bind_throws. unfold at_.
    run_with ltac:(apply runs_vector_size).
    destruct (Z.ltb_spec (to_size_t n)
                (Z.of_nat (length (elements v (dispatcher w)))));
      [lia | apply runs_throw].
Qed.

(** The same in terms of an [int] index and a vector of at most [INT_MAX]
    elements: an index inside the vector reaches its element, a negative
    one or one past the end does not. *)
Lemma runs_at_query_int {A : Type} v n m (f : Q -> A) w :
  Z.of_nat (length (elements v (dispatcher w))) <= INT_MAX ->
  - 2 ^ 31 <= n <= INT_MAX ->
  (forall q,
      0 <= n ->
      elements v (dispatcher w) !! Z.to_nat n = Some q ->
      runs (bind (at_ v n) (fun r => query r m f)) w (Returns (f q)) w
        [(ref v (Z.to_nat n), m)])
  /\ (n < 0 \/ Z.of_nat (length (elements v (dispatcher w))) <= n ->
      runs (bind (at_ v n) (fun r => query r m f)) w (Throws out_of_range)
        w []).
Proof.
  unfold INT_MAX. intros Hlen Hn.
  destruct (runs_at_query v n m f w) as [Hin Hout]. split.
  - intros q Hpos Hq.
    rewrite to_size_t_small in Hin by (unfold SIZE_MAX; lia). by apply Hin.
  - intros Hbad. apply Hout. destruct (Z.lt_ge_cases n 0).
    + rewrite to_size_t_negative by lia. lia.
    + rewrite to_size_t_small by (unfold SIZE_MAX; lia). lia.
Qed.

(** X1: [coroSize] and [coroEmpty] with a queue id other than [All], on
    at most [INT_MAX] coroutine queues: an id inside the vector gives the
    size (emptiness) of that queue by one call on it; any other id, a
    negative one such as [Any] included, throws [std::out_of_range]
    without a call.  The state is left as it was. *)
Theorem coroSize_coroEmpty_by_id w queueId :
  let cs := _coroQueues (dispatcher w) in
  Z.of_nat (length cs) <= INT_MAX ->
  - 2 ^ 31 <= queueId <= INT_MAX ->
  queueId <> QueueId.All ->
  (forall q,
      0 <= queueId ->
      cs !! Z.to_nat queueId = Some q ->
      runs (coroSize queueId) w (Returns (IQueue.size q)) w
        [(CoroQueue (Z.to_nat queueId), Size)]
      /\ runs (coroEmpty queueId) w (Returns (IQueue.empty q)) w
           [(CoroQueue (Z.to_nat queueId), Empty)])
  /\ (queueId < 0 \/ Z.of_nat (length cs) <= queueId ->
      runs (coroSize queueId) w (Throws out_of_range) w []
      /\ runs (coroEmpty queueId) w (Throws out_of_range) w []).
Proof.
  intros cs Hlen Hid Hne. unfold coroSize, coroEmpty.
  destruct (Z.eqb_spec queueId QueueId.All) as [|_]; [done|].
  destruct (runs_at_query_int coroQueues queueId Size IQueue.size w Hlen Hid)
    as [Hsize Hsize_out].
  destruct (runs_at_query_int coroQueues queueId Empty IQueue.empty w Hlen Hid)
    as [Hempty Hempty_out].
  split.
  - intros q Hpos Hq. split; [by apply Hsize | by apply Hempty].
  - intros Hbad. split; [by apply Hsize_out | by apply Hempty_out].
Qed.

(** X2: [ioSize] and [ioEmpty], on at most [INT_MAX] IO queues: [Any]
    asks the shared IO queue alone; an id inside the vector asks that IO
    queue alone; any other id except [All] throws [std::out_of_range]
    without a call.  The state is left as it was. *)
Theorem ioSize_ioEmpty_by_id w queueId :
  let d := dispatcher w in
  Z.of_nat (length (_ioQueues d)) <= INT_MAX ->
  - 2 ^ 31 <= queueId <= INT_MAX ->
  (runs (ioSize QueueId.Any) w (Returns (IQueue.size (_sharedIoQueue d))) w
     [(SharedIoQueue, Size)]
   /\ runs (ioEmpty QueueId.Any) w (Returns (IQueue.empty (_sharedIoQueue d)))
        w [(SharedIoQueue, Empty)])
  /\ (forall q,
        0 <= queueId ->
        _ioQueues d !! Z.to_nat queueId = Some q ->
        runs (ioSize queueId) w (Returns (IQueue.size q)) w
          [(IoQueue (Z.to_nat queueId), Size)]
        /\ runs (ioEmpty queueId) w (Returns (IQueue.empty q)) w
             [(IoQueue (Z.to_nat queueId), Empty)])
  /\ (queueId <> QueueId.All ->
      queueId <> QueueId.Any ->
      queueId < 0 \/ Z.of_nat (length (_ioQueues d)) <= queueId ->
      runs (ioSize queueId) w (Throws out_of_range) w []
      /\ runs (ioEmpty queueId) w (Throws out_of_range) w []).
Proof.
  intros d Hlen Hid.
  destruct (runs_at_query_int ioQueues queueId Size IQueue.size w Hlen Hid)
    as [Hsize Hsize_out].
  destruct (runs_at_query_int ioQueues queueId Empty IQueue.empty w Hlen Hid)
    as [Hempty Hempty_out].
  split_and!.
  - by apply runs_query.
  - by apply runs_query.
  - intros q Hpos Hq. unfold ioSize, ioEmpty.
    destruct (Z.eqb_spec queueId QueueId.All) as [HAll|_];
      [unfold QueueId.All in HAll; lia|].
    destruct (Z.eqb_spec queueId QueueId.Any) as [HAny|_];
      [unfold QueueId.Any in HAny; lia|].
    split; [by apply Hsize | by apply Hempty].
  - intros HAll HAny Hbad. unfold ioSize, ioEmpty.
    destruct (Z.eqb_spec queueId QueueId.All) as [|_]; [done|].
    destruct (Z.eqb_spec queueId QueueId.Any) as [|_]; [done|].
    split; [by apply Hsize_out | by apply Hempty_out].
Qed.

(** The check of [coroStats] and [ioStats], against the number [n] of
    coroutine queues, followed by [v[queueId].stats()]. *)
Lemma runs_checked_stats v queueId w :
  let n := Z.of_nat (length (_coroQueues (dispatcher w))) in
  let checked : M Q Statistics :=
    bind (vector_size coroQueues) (fun n =>
      bind (if (queueId >=? to_int n) || (queueId <? 0)
            then throw (runtime_error "Invalid queue id")
            else ret tt)
        (fun _ =>
           bind (subscript v queueId) (fun r => query r Stats IQueue.stats)))
  in
  n <= INT_MAX ->
  (queueId < 0 \/ n <= queueId ->
   runs checked w (Throws (runtime_error "Invalid queue id")) w [])
  /\ (forall q,
        0 <= queueId < n ->
        elements v (dispatcher w) !! Z.to_nat queueId = Some q ->
        runs checked w (Returns (IQueue.stats q)) w
          [(ref v (Z.to_nat queueId), Stats)]).
Proof.
  intros n checked Hn. unfold INT_MAX in Hn.
  assert (Hint : to_int n = n) by (apply to_int_small; unfold INT_MAX; lia).
  split.
  - intros Hbad. unfold checked.
    run_with ltac:(apply runs_vector_size).
    cbn [elements]. fold n. rewrite Hint. apply runs_bind_throws.
    destruct (Z.geb_spec queueId n); destruct (Z.ltb_spec queueId 0);
      cbn [orb]; first [apply runs_throw | lia].
  - intros q Hid Hq. pose proof (lookup_lt_Some _ _ _ Hq) as Hlt.
    unfold checked. run_with ltac:(apply runs_vector_size).
    cbn [elements]. fold n. rewrite Hint.
    run_with ltac:(
      destruct (Z.geb_spec queueId n); [lia|];
      destruct (Z.ltb_spec queueId 0); [lia|];
      apply runs_ret).
    run_with ltac:(apply runs_subscript; unfold SIZE_MAX; lia).
    apply runs_query. by rewrite lookupQueue_ref.
Qed.

(** X3: [coroStats] with a queue id other than [All], on at most
    [INT_MAX] coroutine queues: an id inside the vector gives the
    statistics of that queue by one call on it; a negative id ([Any]
    included) or one past the end throws ["Invalid queue id"] without a
    call.  The state is left as it was, and the vector is never indexed
    outside its bounds. *)
Theorem coroStats_by_id w queueId :
  let cs := _coroQueues (dispatcher w) in
  Z.of_nat (length cs) <= INT_MAX ->
  queueId <> QueueId.All ->
  (queueId < 0 \/ Z.of_nat (length cs) <= queueId ->
   runs (coroStats queueId) w (Throws (runtime_error "Invalid queue id")) w [])
  /\ (forall q,
        0 <= queueId ->
        cs !! Z.to_nat queueId = Some q ->
        runs (coroStats queueId) w (Returns (IQueue.stats q)) w
          [(CoroQueue (Z.to_nat queueId), Stats)]).
Proof.
  intros cs Hlen Hne. unfold coroStats.
  destruct (Z.eqb_spec queueId QueueId.All) as [|_]; [done|].
  destruct (runs_checked_stats coroQueues queueId w Hlen) as [Hbad Hgood].
  split; [done|].
  intros q Hpos Hq. apply Hgood; [|done].
  pose proof (lookup_lt_Some _ _ _ Hq). subst cs. lia.
Qed.

(** X4: [ioStats], on at most [INT_MAX] queues of each kind: [Any] gives
    the statistics of the shared IO queue; an id that is inside both
    vectors gives the statistics of the IO queue with that index; an id
    other than [All] and [Any] that is negative or not below the number of
    coroutine queues throws ["Invalid queue id"]. *)
Theorem ioStats_by_id w queueId :
  let d := dispatcher w in
  Z.of_nat (length (_coroQueues d)) <= INT_MAX ->
  runs (ioStats QueueId.Any) w (Returns (IQueue.stats (_sharedIoQueue d))) w
    [(SharedIoQueue, Stats)]
  /\ (forall q,
        0 <= queueId < Z.of_nat (length (_coroQueues d)) ->
        _ioQueues d !! Z.to_nat queueId = Some q ->
        runs (ioStats queueId) w (Returns (IQueue.stats q)) w
          [(IoQueue (Z.to_nat queueId), Stats)])
  /\ (queueId <> QueueId.All ->
      queueId <> QueueId.Any ->
      queueId < 0 \/ Z.of_nat (length (_coroQueues d)) <= queueId ->
      runs (ioStats queueId) w (Throws (runtime_error "Invalid queue id"))
        w []).
Proof.
  intros d Hlen.
  destruct (runs_checked_stats ioQueues queueId w Hlen) as [Hbad Hgood].
  split_and!.
  - by apply runs_query.
  - intros q Hid Hq. unfold ioStats.
    destruct (Z.eqb_spec queueId QueueId.All) as [HAll|_];
      [unfold QueueId.All in HAll; lia|].
    destruct (Z.eqb_spec queueId QueueId.Any) as [HAny|_];
      [unfold QueueId.Any in HAny; lia|].
    by apply Hgood.
  - intros HAll HAny Hout. unfold ioStats.
    destruct (Z.eqb_spec queueId QueueId.All) as [|_]; [done|].
    destruct (Z.eqb_spec queueId QueueId.Any) as [|_]; [done|].
    by apply Hbad.
Qed.


Lemma runs_resetStats w :
  runs resetStats w (Returns tt)
    {| dispatcher :=
         {| _coroQueues := IQueue.statsReset <$> _coroQueues (dispatcher w);
            _sharedIoQueue := IQueue.statsReset (_sharedIoQueue (dispatcher w));
            _ioQueues := IQueue.statsReset <$> _ioQueues (dispatcher w);
            _terminated := _terminated (dispatcher w) |};
       taskQueueId := taskQueueId w |}
    (calls_on coroQueues (fun _ => StatsReset)
       (seq 0 (length (_coroQueues (dispatcher w))))
     ++ [(SharedIoQueue, StatsReset)]
     ++ calls_on ioQueues (fun _ => StatsReset)
          (seq 0 (length (_ioQueues (dispatcher w))))).
Proof.
  destruct w as [[cs sh ios tm] h].
  eapply runs_eq.
  - unfold resetStats. run_with ltac:(apply runs_indices).
    run_with ltac:(apply runs_for_each).
    run_with ltac:(by apply runs_command).
    run_with ltac:(apply runs_indices).
    apply runs_for_each.
  - cbn. by rewrite !imap_constant.
  - done.
Qed.

(** X6: [resetStats] returns after one [stats().reset()] on every queue:
    the coroutine queues in index order, then the shared IO queue, then
    the IO queues in index order.  Nothing else changes: the termination
    flag and the tasks are what they were. *)
Theorem resetStats_resets_every_queue w :
  let d := dispatcher w in
  runs resetStats w (Returns tt)
    {| dispatcher :=
         {| _coroQueues := IQueue.statsReset <$> _coroQueues d;
            _sharedIoQueue := IQueue.statsReset (_sharedIoQueue d);
            _ioQueues := IQueue.statsReset <$> _ioQueues d;
            _terminated := _terminated d |};
       taskQueueId := taskQueueId w |}
    (calls_on coroQueues (fun _ => StatsReset)
       (seq 0 (length (_coroQueues d)))
     ++ [(SharedIoQueue, StatsReset)]
     ++ calls_on ioQueues (fun _ => StatsReset)
          (seq 0 (length (_ioQueues d)))).
Proof.
  intros d. subst d.
  destruct (runs_resetStats w) as (Hreturns & Hstate & Hcalls).
  unfold runs. split_and!; assumption.
Qed.

(** X7: [postAsyncIo] of a task with a concrete queue id, on at most
    [INT_MAX] IO queues: an id at or above the number of IO queues throws
    ["Queue id out of bounds"] with no call made and the state as it was;
    an id inside the vector enqueues the task on that IO queue by the only
    call made: no [signalEmptyCondition], nothing on the shared IO queue,
    and the task's queue id stays what it was. *)
Theorem postAsyncIo_concrete_id w task :
  let d := dispatcher w in
  let id := taskQueueId w task in
  Z.of_nat (length (_ioQueues d)) <= INT_MAX ->
  (Z.of_nat (length (_ioQueues d)) <= id ->
   runs (postAsyncIo (Some task)) w
     (Throws (runtime_error "Queue id out of bounds")) w [])
  /\ (0 <= id < Z.of_nat (length (_ioQueues d)) ->
      exists q,
        _ioQueues d !! Z.to_nat id = Some q
        /\ runs (postAsyncIo (Some task)) w (Returns tt)
             (with_elements ioQueues
                (<[Z.to_nat id := IQueue.enqueue task q]> (_ioQueues d)) w)
             [(IoQueue (Z.to_nat id), Enqueue task)]).
Proof.
  intros d id Hcount. unfold INT_MAX in Hcount.
  assert (Hint : to_int (Z.of_nat (length (_ioQueues d)))
                 = Z.of_nat (length (_ioQueues d)))
    by (apply to_int_small; unfold INT_MAX; lia).
  split; intros Hid.
  - assert (Hne : (id =? QueueId.Any) = false)
      by (apply Z.eqb_neq; unfold QueueId.Any; lia).
    unfold postAsyncIo. run_with ltac:(apply runs_getQueueId).
    fold id. rewrite Hne.
    run_with ltac:(apply runs_getQueueId).
    run_with ltac:(apply runs_vector_size).
    cbn [elements]. fold d id. rewrite Hint.
    apply runs_bind_throws.
    destruct (Z.geb_spec id (Z.of_nat (length (_ioQueues d)))); [|lia].
    apply runs_throw.
  - assert (Hne : (id =? QueueId.Any) = false)
      by (apply Z.eqb_neq; unfold QueueId.Any; lia).
    destruct (lookup_lt_is_Some_2 (_ioQueues d) (Z.to_nat id)) as [q Hq];
      [lia|].
    exists q. split; [done|].
    unfold postAsyncIo. run_with ltac:(apply runs_getQueueId).
    fold id. rewrite Hne.
    run_with ltac:(apply runs_getQueueId).
    run_with ltac:(apply runs_vector_size).
    cbn [elements]. fold d id. rewrite Hint.
    run_with ltac:(
      destruct (Z.geb_spec id (Z.of_nat (length (_ioQueues d))));
      [lia | apply runs_ret]).
    run_with ltac:(apply runs_getQueueId).
    fold id.
    run_with ltac:(apply runs_subscript; cbn [elements]; fold d;
                   unfold SIZE_MAX; lia).
    by apply (runs_command_ref ioQueues).
Qed.

(** *** Where the emptiness loops stop *)

Lemma runs_all_empty_calls v (otherwise : M Q bool) :
  forall (l2 l1 : list Q) w,
    elements v (dispatcher w) = l1 ++ l2 ->
    final (otherwise w) = w ->
    runs (all_empty v (seq (length l1) (length l2)) otherwise) w
      (if forallb IQueue.empty l2 then result (otherwise w)
       else Returns false)
      w
      (calls_on v (fun _ => Empty) (seq (length l1) (asked l2))
       ++ (if forallb IQueue.empty l2 then calls (otherwise w) else [])).
Proof.
  induction l2 as [|q l2 IH]; intros l1 w Hw Hpure.
  - cbn. by unfold runs.
  - assert (Hq : lookupQueue (ref v (length l1)) (dispatcher w) = Some q).
    { rewrite lookupQueue_ref, Hw. by apply list_lookup_middle. }
    unfold asked. cbn [length seq all_empty forallb leading_empty].
    destruct (IQueue.empty q) eqn:Hempty; cbn [andb].
    + specialize (IH (l1 ++ [q]) w).
      rewrite length_app in IH. cbn [length] in IH. rewrite Nat.add_1_r in IH.
      rewrite <- Nat.succ_min_distr. cbn [seq].
      run_with ltac:(apply (runs_query _ Empty IQueue.empty _ _ Hq)).
      rewrite Hempty. cbn [negb]. apply IH; [by rewrite <- app_assoc | done].
    + cbn [Nat.min seq].
      run_with ltac:(apply (runs_query _ Empty IQueue.empty _ _ Hq)).
      rewrite Hempty. cbn [negb]. apply runs_ret.
Qed.

(** X8: the aggregate emptiness queries stop at the first queue that is
    not empty.  [coroEmpty(All)] asks the coroutine queues in index order
    up to and including the first one that is not empty, and no queue
    after it; [ioEmpty(All)] does the same over the IO queues and asks
    the shared IO queue only when every IO queue is empty;
    [empty(All, All)] asks no IO queue at all unless every coroutine queue
    is empty. *)
Theorem emptiness_queries_stop_early w :
  let d := dispatcher w in
  let coro_calls :=
    calls_on coroQueues (fun _ => Empty) (seq 0 (asked (_coroQueues d))) in
  let io_calls :=
    calls_on ioQueues (fun _ => Empty) (seq 0 (asked (_ioQueues d)))
    ++ (if forallb IQueue.empty (_ioQueues d)
        then [(SharedIoQueue, Empty)] else []) in
  let io_empty :=
    forallb IQueue.empty (_ioQueues d) && IQueue.empty (_sharedIoQueue d) in
  runs (coroEmpty QueueId.All) w
    (Returns (forallb IQueue.empty (_coroQueues d))) w coro_calls
  /\ runs (ioEmpty QueueId.All) w (Returns io_empty) w io_calls
  /\ runs (empty QueueType.All QueueId.All) w
       (Returns (forallb IQueue.empty (_coroQueues d) && io_empty)) w
       (coro_calls
        ++ (if forallb IQueue.empty (_coroQueues d) then io_calls else [])).
Proof.
  intros d coro_calls io_calls io_empty.
  subst coro_calls io_calls io_empty d.
  pose proof (runs_all_empty_calls coroQueues (ret true)
                (_coroQueues (dispatcher w)) [] w eq_refl eq_refl) as Hcs.
  pose proof (runs_all_empty_calls ioQueues
                (query SharedIoQueue Empty IQueue.empty)
                (_ioQueues (dispatcher w)) [] w eq_refl eq_refl) as Hios.
  cbn [length ret query lookupQueue result calls] in Hcs, Hios.
  assert (Hcoro :
    runs (coroEmpty QueueId.All) w
      (Returns (forallb IQueue.empty (_coroQueues (dispatcher w)))) w
      (calls_on coroQueues (fun _ => Empty)
         (seq 0 (asked (_coroQueues (dispatcher w)))))).
  { unfold coroEmpty. cbn [Z.eqb QueueId.All Pos.eqb].
    destruct (forallb IQueue.empty (_coroQueues (dispatcher w)));
      rewrite app_nil_r in Hcs;
      (run_with ltac:(apply runs_indices)); apply Hcs. }
  assert (Hio :
    runs (ioEmpty QueueId.All) w
      (Returns (forallb IQueue.empty (_ioQueues (dispatcher w))
                && IQueue.empty (_sharedIoQueue (dispatcher w)))) w
      (calls_on ioQueues (fun _ => Empty)
         (seq 0 (asked (_ioQueues (dispatcher w))))
       ++ (if forallb IQueue.empty (_ioQueues (dispatcher w))
           then [(SharedIoQueue, Empty)] else []))).
  { unfold ioEmpty. cbn [Z.eqb QueueId.All Pos.eqb].
    destruct (forallb IQueue.empty (_ioQueues (dispatcher w)));
      cbn [andb]; (run_with ltac:(apply runs_indices)); apply Hios. }
  split_and!; [done | done |].
  unfold empty. cbn [Z.eqb QueueId.All Pos.eqb negb].
  destruct (forallb IQueue.empty (_coroQueues (dispatcher w))) eqn:Hall;
    cbn [andb].
  - run_with ltac:(apply runs_ret).
    run_with ltac:(apply Hcoro).
    apply Hio.
  - eapply runs_calls.
    + run_with ltac:(apply runs_ret).
      run_with ltac:(apply Hcoro).
      apply runs_ret.
    + done.
Qed.

(** *** Queries change nothing *)























(** [v.at(n).method()] returns or throws [std::out_of_range]. *)
Lemma at_query_outcome {A : Type} v n m (f : Q -> A) w :
  (exists a, result (bind (at_ v n) (fun r => query r m f) w) = Returns a)
  \/ result (bind (at_ v n) (fun r => query r m f) w) = Throws out_of_range.
Proof.
  destruct (runs_at_query v n m f w) as [Hin Hout].
  destruct (elements v (dispatcher w) !! Z.to_nat (to_size_t n))
    as [q|] eqn:Hq.
  - left. exists (f q). by destruct (Hin q eq_refl) as (-> & _).
  - right. apply lookup_ge_None in Hq.
    pose proof (to_size_t_range n).
    by destruct Hout as (-> & _); [lia|].
Qed.

(** X10: for every queue type, queue id and state, [size] and [empty]
    either return or throw one of two exceptions: ["Cannot specify queue
    id"], only for type [All] with an id other than [All], and
    [std::out_of_range], only for a type other than [All].  They never
    index a vector outside its bounds. *)
Theorem size_and_empty_outcomes (type : QueueType.t) (queueId : Z) w :
  ((exists n, result (size type queueId w) = Returns n)
   \/ (result (size type queueId w) = Throws out_of_range
       /\ type <> QueueType.All)
   \/ (result (size type queueId w)
       = Throws (runtime_error "Cannot specify queue id")
       /\ type = QueueType.All /\ queueId <> QueueId.All))
  /\ ((exists b, result (empty type queueId w) = Returns b)
      \/ (result (empty type queueId w) = Throws out_of_range
          /\ type <> QueueType.All)
      \/ (result (empty type queueId w)
          = Throws (runtime_error "Cannot specify queue id")
          /\ type = QueueType.All /\ queueId <> QueueId.All)).
Proof.
  assert (Hcoro_size :
    (exists n, result (coroSize queueId w) = Returns n)
    \/ result (coroSize queueId w) = Throws out_of_range).
  { unfold coroSize. destruct (Z.eqb_spec queueId QueueId.All) as [->|_].
    - left. eexists. apply runs_coroSize_All.
    - apply at_query_outcome. }
  assert (Hio_size :
    (exists n, result (ioSize queueId w) = Returns n)
    \/ result (ioSize queueId w) = Throws out_of_range).
  { unfold ioSize. destruct (Z.eqb_spec queueId QueueId.All) as [->|_];
      [|destruct (Z.eqb_spec queueId QueueId.Any) as [->|_]].
    - left. eexists. apply runs_ioSize_All.
    - left. eexists. by apply runs_query.
    - apply at_query_outcome. }
  assert (Hcoro_empty :
    (exists b, result (coroEmpty queueId w) = Returns b)
    \/ result (coroEmpty queueId w) = Throws out_of_range).
  { unfold coroEmpty. destruct (Z.eqb_spec queueId QueueId.All) as [->|_].
    - left. destruct (runs_coroEmpty_All w) as [cs Hcs].
      eexists. apply Hcs.
    - apply at_query_outcome. }
  assert (Hio_empty :
    (exists b, result (ioEmpty queueId w) = Returns b)
    \/ result (ioEmpty queueId w) = Throws out_of_range).
  { unfold ioEmpty. destruct (Z.eqb_spec queueId QueueId.All) as [->|_];
      [|destruct (Z.eqb_spec queueId QueueId.Any) as [->|_]].
    - left. destruct (runs_ioEmpty_All w) as [cs Hcs].
      eexists. apply Hcs.
    - left. eexists. by apply runs_query.
    - apply at_query_outcome. }
  destruct type; cbn [size empty].
  - split; [destruct Hcoro_size as [?|?] | destruct Hcoro_empty as [?|?]];
      first [by left | by right; left].
  - split; [destruct Hio_size as [?|?] | destruct Hio_empty as [?|?]];
      first [by left | by right; left].
  - destruct (Z.eqb_spec queueId QueueId.All) as [->|Hne].
    + split; left.
      * eexists. apply runs_size_All_All.
      * destruct (runs_empty_All_All w) as [cs Hcs]. eexists. apply Hcs.
    + split; right; right; done.
Qed.

(** *** What a method leaves alone *)






#[local] Instance coro_frame_refl task : Reflexive (coro_frame (Q:=Q) task).
Proof. by intros w. Qed.

#[local] Instance coro_frame_trans task : Transitive (coro_frame (Q:=Q) task).
Proof.
  intros w1 w2 w3 (Hio & Hsh & Htm & Hlen & Hids) (Hio' & Hsh' & Htm' & Hlen' & Hids').
  unfold coro_frame. rewrite Hio', Hsh', Htm', Hlen'. split_and!; try done.
  intros t Ht. rewrite Hids', Hids; done.
Qed.

#[local] Instance io_frame_refl : Reflexive (io_frame (Q:=Q)).
Proof. by intros w. Qed.

#[local] Instance io_frame_trans : Transitive (io_frame (Q:=Q)).
Proof.
  intros w1 w2 w3 (Hco & Htm & Hlen & Hids) (Hco' & Htm' & Hlen' & Hids').
  unfold io_frame. rewrite Hco', Htm', Hlen'. split_and!; try done.
  intros t. by rewrite Hids', Hids.
Qed.






(** *** The termination flag is not consulted *)


















(** *** Posting the same task again *)

Lemma runs_post_Any w task :
  taskQueueId w task = QueueId.Any ->
  _coroQueues (dispatcher w) <> [] ->
  Z.of_nat (length (_coroQueues (dispatcher w))) <= INT_MAX ->
  exists (index scanned : nat) (q : Q),
    _coroQueues (dispatcher w) !! index = Some q
    /\ runs (post (Some task)) w (Returns tt)
         {| dispatcher :=
              storeQueue (CoroQueue index) (IQueue.enqueue task q)
                (dispatcher w);
            taskQueueId := <[task := Z.of_nat index]> (taskQueueId w) |}
         (calls_on coroQueues (fun _ => Size) (seq 0 scanned)
          ++ [(CoroQueue index, Enqueue task)]).
Proof.
  intros Hany Hnonempty Hcount.
  destruct (runs_shortest_initial w Hnonempty)
    as (index & scanned & (q & Hq & _) & _ & _ & Hscan).
  pose proof (lookup_lt_Some _ _ _ Hq) as Hindex.
  exists index, scanned, q. split; [done|].
  unfold INT_MAX in Hcount. eapply runs_eq.
  - unfold post. run_with ltac:(apply runs_getQueueId).
    rewrite Hany. cbn [Z.eqb QueueId.Any Pos.eqb].
    run_with ltac:(
      run_with ltac:(apply runs_indices);
      cbn [elements];
      run_with ltac:(apply Hscan);
      apply runs_setQueueId).
    rewrite to_int_small by (unfold INT_MAX; lia).
    run_with ltac:(apply runs_getQueueId).
    cbn [taskQueueId]. rewrite fn_lookup_insert.
    run_with ltac:(apply runs_subscript; cbn [elements dispatcher];
                   unfold SIZE_MAX; lia).
    rewrite Nat2Z.id.
    apply runs_command. cbn [ref lookupQueue dispatcher]. apply Hq.
  - done.
  - cbn [app]. by rewrite app_nil_r.
Qed.

Lemma runs_post_inside w task q :
  Z.of_nat (length (_coroQueues (dispatcher w))) <= INT_MAX ->
  0 <= taskQueueId w task ->
  _coroQueues (dispatcher w) !! Z.to_nat (taskQueueId w task) = Some q ->
  runs (post (Some task)) w (Returns tt)
    {| dispatcher :=
         storeQueue (CoroQueue (Z.to_nat (taskQueueId w task)))
           (IQueue.enqueue task q) (dispatcher w);
       taskQueueId := taskQueueId w |}
    [(CoroQueue (Z.to_nat (taskQueueId w task)), Enqueue task)].
Proof.
  unfold INT_MAX. intros Hcount Hpos Hq.
  pose proof (lookup_lt_Some _ _ _ Hq) as Hlt.
  assert (Hne : (taskQueueId w task =? QueueId.Any) = false)
    by (apply Z.eqb_neq; unfold QueueId.Any; lia).
  unfold post. run_with ltac:(apply runs_getQueueId).
  rewrite Hne.
  run_with ltac:(
    run_with ltac:(apply runs_getQueueId);
    run_with ltac:(apply runs_vector_size);
    cbn [elements];
    rewrite to_int_small by (unfold INT_MAX; lia);
    destruct (Z.geb_spec (taskQueueId w task)
                (Z.of_nat (length (_coroQueues (dispatcher w)))));
    [lia | apply runs_ret]).
  run_with ltac:(apply runs_getQueueId).
  run_with ltac:(apply runs_subscript; cbn [elements];
                 unfold SIZE_MAX; lia).
  by apply runs_command.
Qed.

(** X15: [Any] is resolved once.  With at least one and at most
    [INT_MAX] coroutine queues, posting a task whose queue id is [Any]
    and then posting the same task again puts it twice on the queue
    chosen the first time: the second [post] finds the index the first
    one wrote into the task, reads no size, and makes the one call
    [enqueue] on that queue. *)
Theorem posting_again_skips_the_scan w task :
  let d := dispatcher w in
  taskQueueId w task = QueueId.Any ->
  _coroQueues d <> [] ->
  Z.of_nat (length (_coroQueues d)) <= INT_MAX ->
  exists (index scanned : nat) (q : Q),
    _coroQueues d !! index = Some q
    /\ runs (bind (post (Some task)) (fun _ => post (Some task))) w
         (Returns tt)
         {| dispatcher :=
              {| _coroQueues :=
                   <[index := IQueue.enqueue task (IQueue.enqueue task q)]>
                     (_coroQueues d);
                 _sharedIoQueue := _sharedIoQueue d;
                 _ioQueues := _ioQueues d;
                 _terminated := _terminated d |};
            taskQueueId := <[task := Z.of_nat index]> (taskQueueId w) |}
         (calls_on coroQueues (fun _ => Size) (seq 0 scanned)
          ++ [(CoroQueue index, Enqueue task);
              (CoroQueue index, Enqueue task)]).
Proof.
  intros d Hany Hnonempty Hcount. subst d.
  destruct (runs_post_Any w task Hany Hnonempty Hcount)
    as (index & scanned & q & Hq & Hfirst).
  pose proof (lookup_lt_Some _ _ _ Hq) as Hindex.
  exists index, scanned, q. split; [done|].
  set (w1 := {| dispatcher :=
                  storeQueue (CoroQueue index) (IQueue.enqueue task q)
                    (dispatcher w);
                taskQueueId := <[task := Z.of_nat index]> (taskQueueId w) |})
    in *.
  assert (Hid : taskQueueId w1 task = Z.of_nat index)
    by (cbn [w1 taskQueueId]; apply fn_lookup_insert).
  assert (Hsecond :
    runs (post (Some task)) w1 (Returns tt)
      {| dispatcher :=
           storeQueue (CoroQueue (Z.to_nat (taskQueueId w1 task)))
             (IQueue.enqueue task (IQueue.enqueue task q)) (dispatcher w1);
         taskQueueId := taskQueueId w1 |}
      [(CoroQueue (Z.to_nat (taskQueueId w1 task)), Enqueue task)]).
  { apply runs_post_inside.
    - cbn [w1 dispatcher storeQueue _coroQueues]. by rewrite length_insert.
    - lia.
    - rewrite Hid, Nat2Z.id. cbn [w1 dispatcher storeQueue _coroQueues].
      by apply list_lookup_insert_eq. }
  rewrite Hid, Nat2Z.id in Hsecond.
  eapply runs_eq.
  - run_with ltac:(apply Hfirst). apply Hsecond.
  - cbn [w1 dispatcher storeQueue _coroQueues _sharedIoQueue _ioQueues
           _terminated taskQueueId].
    by rewrite list_insert_insert_eq.
  - by rewrite <- app_assoc.
Qed.

(** *** A new dispatcher *)

Lemma runs_constructor_body hardware_concurrency pin w :
  (pin = true ->
   Z.of_nat (length (_coroQueues (dispatcher w))) <= hardware_concurrency) ->
  runs (constructor_body hardware_concurrency pin) w (Returns tt)
    (if pin
     then with_elements coroQueues
            (imap (fun i => IQueue.pinToCore (Z.of_nat i))
               (_coroQueues (dispatcher w))) w
     else w)
    (if pin
     then calls_on coroQueues (fun i => PinToCore (Z.of_nat i))
            (seq 0 (length (_coroQueues (dispatcher w))))
     else []).
Proof.
  intros Hfits. destruct pin; [|apply runs_ret].
  specialize (Hfits eq_refl).
  unfold constructor_body. run_with ltac:(apply runs_vector_size).
  cbn [elements].
  run_with ltac:(
    destruct (Z.gtb_spec (Z.of_nat (length (_coroQueues (dispatcher w))))
                hardware_concurrency);
    [lia | apply runs_ret]).
  run_with ltac:(apply runs_indices).
  apply (runs_for_each coroQueues
           (fun i => PinToCore (Z.of_nat i))
           (fun i => IQueue.pinToCore (Z.of_nat i))).
Qed.

(** X16: a dispatcher that has just been constructed (hardware
    concurrency an [unsigned int], [numCoroutineThreads] -1 or between 0
    and [INT_MAX], [numIoThreads] between 0 and [INT_MAX], and with
    pinning no more coroutine queues than hardware units) has its
    termination flag clear, [numIoThreads] IO queues built with the
    pointer to the shared IO queue, and a shared IO queue built with a
    null pointer; pinning touches no IO queue.  Its first [terminate]
    calls [terminate] on each of its coroutine queues, then on each of
    its IO queues, then on the shared IO queue. *)
Theorem new_dispatcher_terminates_every_queue hardware_concurrency
    numCoroutineThreads numIoThreads pinCoroutineThreadsToCores tasks :
  0 <= hardware_concurrency <= UINT_MAX ->
  numCoroutineThreads = -1 \/ 0 <= numCoroutineThreads <= INT_MAX ->
  0 <= numIoThreads <= INT_MAX ->
  let count :=
    if numCoroutineThreads =? -1 then hardware_concurrency
    else numCoroutineThreads in
  (pinCoroutineThreadsToCores = true -> count <= hardware_concurrency) ->
  let o : Outcome Q unit :=
    new hardware_concurrency numCoroutineThreads numIoThreads
      pinCoroutineThreadsToCores tasks in
  result o = Returns tt
  /\ _terminated (dispatcher (final o)) = false
  /\ counts (final o) = (Z.to_nat count, Z.to_nat numIoThreads)
  /\ _ioQueues (dispatcher (final o))
     = replicate (Z.to_nat numIoThreads) (IQueue.newIoQueue true)
  /\ _sharedIoQueue (dispatcher (final o)) = IQueue.newIoQueue false
  /\ result (terminate (final o)) = Returns tt
  /\ calls (terminate (final o))
     = calls_on coroQueues (fun _ => Terminate) (seq 0 (Z.to_nat count))
       ++ calls_on ioQueues (fun _ => Terminate)
            (seq 0 (Z.to_nat numIoThreads))
       ++ [(SharedIoQueue, Terminate)].
Proof.
  intros Hhw Hn Hm count Hfits o.
  pose proof (coroQueues_count hardware_concurrency numCoroutineThreads
                numIoThreads Hhw Hn) as Hlen.
  fold count in Hlen.
  assert (Hcount : 0 <= count)
    by (subst count; destruct (Z.eqb_spec numCoroutineThreads (-1)); lia).
  set (w0 := {| dispatcher :=
                  members hardware_concurrency numCoroutineThreads
                    numIoThreads;
                taskQueueId := tasks |}).
  assert (Hio : _ioQueues (members (Q:=Q) hardware_concurrency
                               numCoroutineThreads numIoThreads)
                = replicate (Z.to_nat numIoThreads) (IQueue.newIoQueue true)).
  { cbn [members _ioQueues].
    rewrite to_size_t_small; [done|]. unfold INT_MAX, SIZE_MAX in *. lia. }
  destruct (runs_constructor_body hardware_concurrency
              pinCoroutineThreadsToCores w0) as (Hr & Hf & _).
  { intros Hpin. cbn [w0 dispatcher]. rewrite Hlen. specialize (Hfits Hpin).
    lia. }
  change (constructor_body hardware_concurrency pinCoroutineThreadsToCores w0)
    with o in Hr, Hf.
  assert (Hshape :
    _terminated (dispatcher (final o)) = false
    /\ counts (final o) = (Z.to_nat count, Z.to_nat numIoThreads)
    /\ _ioQueues (dispatcher (final o))
       = replicate (Z.to_nat numIoThreads) (IQueue.newIoQueue true)
    /\ _sharedIoQueue (dispatcher (final o)) = IQueue.newIoQueue false).
  { rewrite Hf. unfold counts, w0.
    destruct pinCoroutineThreadsToCores;
      cbn [with_elements dispatcher _terminated _coroQueues _ioQueues
             _sharedIoQueue];
      rewrite ?length_imap, Hlen, Hio, length_replicate; done. }
  destruct Hshape as (Hflag & Hcounts & Hios & Hshared).
  split_and!; try done.
  - by destruct (runs_terminate_first (final o) Hflag) as (-> & _).
  - destruct (runs_terminate_first (final o) Hflag) as (_ & _ & ->).
    unfold shutdown_sequence. unfold counts in Hcounts.
    by injection Hcounts as -> ->.
Qed.


End Properties.

(** ** The properties at work *)

Lemma post_Any_on_3_1_1_5 :
  result (post (Some 0%nat) world_3_1_1_5) = Returns tt
  /\ taskQueueId (final (post (Some 0%nat) world_3_1_1_5)) 0%nat = 1
  /\ (SimQueue.pending
        <$> _coroQueues (dispatcher (final (post (Some 0%nat) world_3_1_1_5))))
     = [[10; 11; 12]; [13; 0]; [14]; [15; 16; 17; 18; 19]]%nat.
Proof.
  assert (Hany : taskQueueId world_3_1_1_5 0%nat = QueueId.Any)
    by reflexivity.
  assert (Hnonempty : _coroQueues (dispatcher world_3_1_1_5) <> [])
    by discriminate.
  assert (Hcount :
    Z.of_nat (length (_coroQueues (dispatcher world_3_1_1_5))) <= INT_MAX)
    by (vm_compute; discriminate).
  pose proof (post_Any_picks_shortest_queue world_3_1_1_5 0%nat
                Hany Hnonempty Hcount) as Hpost.
  cbv zeta in Hpost.
  destruct Hpost
    as (index & scanned & q & _ & _ & _ & Hq & Hruns & Hsizes & _).
  rewrite (Hsizes eq_refl) in Hq, Hruns. injection Hq as <-.
  destruct Hruns as (Hr & Hf & _). rewrite Hr, Hf. done.
Defined.

Lemma terminate_three_times :
  runs (terminate_times 3) world_3_1_1_5 (Returns tt)
    (terminated_world world_3_1_1_5)
    (shutdown_sequence (dispatcher world_3_1_1_5)).
Proof.
  apply (proj1 (terminate_is_one_shot world_3_1_1_5 2 eq_refl)).
Defined.

Lemma postAsyncIo_Any_keeps_Any :
  taskQueueId (final (postAsyncIo (Some 0%nat) world_3_1_1_5)) 0%nat
  = QueueId.Any.
Proof.
  apply (proj2 (postAsyncIo_Any_uses_shared_queue world_3_1_1_5 0%nat
                  eq_refl)).
Defined.

Lemma post_to_queue_7_of_4 :
  runs (post (Some 2%nat)) world_3_1_1_5
    (Throws (runtime_error "Queue id out of bounds")) world_3_1_1_5 [].
Proof.
  apply (proj1 (post_concrete_id world_3_1_1_5 2%nat
                  ltac:(vm_compute; discriminate))).
  vm_compute. discriminate.
Defined.

Lemma sizes_of_3_1_1_5_add_up :
  let d := dispatcher world_3_1_1_5 in
  size_t_add (to_size_t (total_size (_coroQueues d)))
    (to_size_t (total_size (_ioQueues d) + IQueue.size (_sharedIoQueue d)))
  = 10 + 1.
Proof.
  intros d.
  pose proof (size_and_empty_All_All world_3_1_1_5) as Hall.
  cbv zeta in Hall. fold d in Hall.
  destruct Hall as (_ & _ & _ & Hfit & _).
  destruct Hfit as (Hcoro & Hio & Hsum); [vm_compute; discriminate|].
  rewrite Hsum, Hcoro, Hio. reflexivity.
Defined.

Lemma size_All_of_queue_3 :
  runs (size QueueType.All 3) world_3_1_1_5
    (Throws (runtime_error "Cannot specify queue id")) world_3_1_1_5 [].
Proof.
  apply (proj1 (type_All_requires_id_All world_3_1_1_5) 3).
  discriminate.
Defined.

Lemma three_pinned_queues_on_two_cores :
  result (new (Q:=SimQueue.t) 2 3 2 true example_tasks)
  = Throws (runtime_error "Number of queues exceeds cores.").
Proof.
  assert (Hhw : 0 <= 2 <= UINT_MAX) by (vm_compute; split; discriminate).
  assert (Hn : 3 = -1 \/ 0 <= 3 <= INT_MAX)
    by (right; vm_compute; split; discriminate).
  assert (Hm : 0 <= 2 <= INT_MAX) by (vm_compute; split; discriminate).
  pose proof (construction (Q:=SimQueue.t) 2 3 2 true example_tasks
                Hhw Hn Hm) as Hnew.
  cbv zeta in Hnew. destruct Hnew as (_ & _ & Hpin).
  destruct (Hpin eq_refl) as (Hiff & _). apply Hiff. reflexivity.
Defined.

Lemma ioStats_1_of_two_io_queues :
  runs (ioStats 1) world_1_coro_2_io
    (Throws (runtime_error "Invalid queue id")) world_1_coro_2_io []
  /\ runs (ioStats 1) world_2_coro_1_io Undefined world_2_coro_1_io [].
Proof.
  split.
  - apply (ioStats_checks_the_other_vector world_1_coro_2_io 1).
    + vm_compute. discriminate.
    + vm_compute. discriminate.
    + vm_compute. split; [discriminate | reflexivity].
  - apply (ioStats_checks_the_other_vector world_2_coro_1_io 1).
    + vm_compute. discriminate.
    + vm_compute. discriminate.
    + vm_compute. split; [discriminate | reflexivity].
Defined.

Lemma post_with_id_All :
  runs (post (Some 1%nat)) world_3_1_1_5 Undefined world_3_1_1_5 []
  /\ runs (postAsyncIo (Some 1%nat)) world_3_1_1_5 Undefined
       world_3_1_1_5 [].
Proof.
  apply (negative_id_passes_the_bounds_check world_3_1_1_5 1%nat).
  - vm_compute. discriminate.
  - vm_compute. discriminate.
  - vm_compute. split; [discriminate | reflexivity].
  - discriminate.
Defined.

Lemma coroSize_of_queue_1_and_of_Any :
  runs (coroSize 1) world_3_1_1_5 (Returns 1) world_3_1_1_5
    [(CoroQueue 1, Size)]
  /\ runs (coroSize QueueId.Any) world_3_1_1_5 (Throws out_of_range)
       world_3_1_1_5 [].
Proof.
  assert (Hlen :
    Z.of_nat (length (_coroQueues (dispatcher world_3_1_1_5))) <= INT_MAX)
    by (vm_compute; discriminate).
  split.
  - pose proof (coroSize_coroEmpty_by_id world_3_1_1_5 1 Hlen) as Hone.
    cbv zeta in Hone.
    destruct Hone as [Hin _];
      [vm_compute; split; discriminate | discriminate |].
    apply (Hin (SimQueue.make [13%nat])); [vm_compute; discriminate | done].
  - pose proof (coroSize_coroEmpty_by_id world_3_1_1_5 QueueId.Any Hlen)
      as HAny.
    cbv zeta in HAny.
    destruct HAny as [_ Hout];
      [vm_compute; split; discriminate | discriminate |].
    apply Hout. left. reflexivity.
Defined.

Lemma ioSize_of_queue_1_and_of_queue_5 :
  runs (ioSize 1) world_3_1_1_5 (Returns 1) world_3_1_1_5 [(IoQueue 1, Size)]
  /\ runs (ioSize 5) world_3_1_1_5 (Throws out_of_range) world_3_1_1_5 [].
Proof.
  assert (Hlen :
    Z.of_nat (length (_ioQueues (dispatcher world_3_1_1_5))) <= INT_MAX)
    by (vm_compute; discriminate).
  split.
  - pose proof (ioSize_ioEmpty_by_id world_3_1_1_5 1 Hlen) as Hone.
    cbv zeta in Hone.
    destruct Hone as (_ & Hin & _); [vm_compute; split; discriminate|].
    apply (Hin (SimQueue.make [20%nat])); [vm_compute; discriminate | done].
  - pose proof (ioSize_ioEmpty_by_id world_3_1_1_5 5 Hlen) as Hfive.
    cbv zeta in Hfive.
    destruct Hfive as (_ & _ & Hout); [vm_compute; split; discriminate|].
    apply Hout; [discriminate | discriminate |].
    right. vm_compute. discriminate.
Defined.

Lemma coroStats_of_queue_7_of_4 :
  runs (coroStats 7) world_3_1_1_5 (Throws (runtime_error "Invalid queue id"))
    world_3_1_1_5 [].
Proof.
  pose proof (coroStats_by_id world_3_1_1_5 7) as Hseven.
  cbv zeta in Hseven.
  destruct Hseven as [Hout _];
    [vm_compute; discriminate | discriminate |].
  apply Hout. right. vm_compute. discriminate.
Defined.

Lemma ioStats_of_queue_1_of_2 :
  runs (ioStats 1) world_3_1_1_5
    (Returns (SimQueue.statistics (SimQueue.make [20%nat]))) world_3_1_1_5
    [(IoQueue 1, Stats)].
Proof.
  pose proof (ioStats_by_id world_3_1_1_5 1) as Hone.
  cbv zeta in Hone.
  destruct Hone as (_ & Hin & _); [vm_compute; discriminate|].
  apply (Hin (SimQueue.make [20%nat])); [|done].
  vm_compute. split; [discriminate | reflexivity].
Defined.

Lemma postAsyncIo_to_queue_7_of_2 :
  runs (postAsyncIo (Some 2%nat)) world_3_1_1_5
    (Throws (runtime_error "Queue id out of bounds")) world_3_1_1_5 [].
Proof.
  pose proof (postAsyncIo_concrete_id world_3_1_1_5 2%nat) as Htwo.
  cbv zeta in Htwo.
  destruct Htwo as [Hout _]; [vm_compute; discriminate|].
  apply Hout. vm_compute. discriminate.
Defined.


Lemma posting_task_0_twice :
  result (bind (post (Some 0%nat)) (fun _ => post (Some 0%nat)) world_3_1_1_5)
  = Returns tt.
Proof.
  assert (Hany : taskQueueId world_3_1_1_5 0%nat = QueueId.Any)
    by reflexivity.
  assert (Hnonempty : _coroQueues (dispatcher world_3_1_1_5) <> [])
    by discriminate.
  assert (Hcount :
    Z.of_nat (length (_coroQueues (dispatcher world_3_1_1_5))) <= INT_MAX)
    by (vm_compute; discriminate).
  pose proof (posting_again_skips_the_scan world_3_1_1_5 0%nat
                Hany Hnonempty Hcount) as Htwice.
  cbv zeta in Htwice.
  destruct Htwice as (index & scanned & q & _ & Hr & _). exact Hr.
Defined.

Lemma eight_pinned_queues_on_eight_cores :
  counts (final (new (Q:=SimQueue.t) 8 (-1) 2 true example_tasks))
  = (8%nat, 2%nat)
  /\ result (terminate (final (new (Q:=SimQueue.t) 8 (-1) 2 true
                                 example_tasks)))
     = Returns tt.
Proof.
  assert (Hhw : 0 <= 8 <= UINT_MAX) by (vm_compute; split; discriminate).
  assert (Hn : -1 = -1 \/ 0 <= -1 <= INT_MAX) by (left; reflexivity).
  assert (Hm : 0 <= 2 <= INT_MAX) by (vm_compute; split; discriminate).
  pose proof (new_dispatcher_terminates_every_queue (Q:=SimQueue.t)
                8 (-1) 2 true example_tasks Hhw Hn Hm) as Hnew.
  cbv zeta in Hnew.
  destruct Hnew as (_ & _ & Hcounts & _ & _ & Hterminate & _).
  - intros _. vm_compute. discriminate.
  - split; [exact Hcounts | exact Hterminate].
Defined.


End DispatcherCore.
